(** * Desktop overlay manager: a shallow embedding and its properties

    The development follows the two source files of the package:
    - [overlay.py]: the classes [DraggableOverlay] and [DraggablePoint]
      (module [Overlay] and module [Point] below);
    - [__init__.py]: the class [Desktop_overlay_manager], split here into the
      marker registry ([Manager]), the command queue served by the Tk thread
      ([Dispatcher]) and the persisted document ([ConfigStore]).

    Python integers are unbounded, so they are [Z].  Dictionaries are
    [gmap string _].  The windowing toolkit is not part of the package: what
    the code reads from it (screen size, pointer events, window position) is
    an input of the functions below, and what it asks of it (window geometry,
    label and handle items) is recorded in the state. *)

From Stdlib Require Import ZArith QArith Lia.
From stdpp Require Import gmap strings list fin_maps.

#[local] Set Warnings "-register-all".
#[local] Open Scope Z_scope.

(** ** Python values shared by the modules *)

(** An exception object, as far as the code tells exceptions apart: by class.
    [exn_is_Exception] is [isinstance(e, Exception)]; it is false for
    [SystemExit], [KeyboardInterrupt] and [GeneratorExit]. *)
Record py_exn := PyExn {
  exn_class : string;
  exn_message : string;
  exn_is_Exception : bool;
}.

#[global] Instance py_exn_eq_dec : EqDecision py_exn.
Proof. solve_decision. Defined.

Definition RuntimeError (msg : string) : py_exn := PyExn "RuntimeError" msg true.
Definition InvalidStateError : py_exn := PyExn "InvalidStateError" "" true.
Definition OSError : py_exn := PyExn "OSError" "" true.
Definition JSONDecodeError : py_exn := PyExn "JSONDecodeError" "" true.
Definition UnicodeDecodeError : py_exn := PyExn "UnicodeDecodeError" "" true.
Definition UnicodeEncodeError : py_exn := PyExn "UnicodeEncodeError" "" true.
Definition TypeError : py_exn := PyExn "TypeError" "" true.
Definition ValueError : py_exn := PyExn "ValueError" "" true.
Definition OverflowError : py_exn := PyExn "OverflowError" "" true.
Definition AttributeError : py_exn := PyExn "AttributeError" "" true.
Definition TclError : py_exn := PyExn "TclError" "" true.

(** The outcome of a call: a value, or an exception that leaves the call. *)
Inductive py_result (A : Type) : Type :=
  | Returns (a : A)
  | Raises (e : py_exn).
Arguments Returns {A} a.
Arguments Raises {A} e.

#[global] Instance py_result_ret : MRet py_result := λ A a, Returns a.

#[global] Instance py_result_bind : MBind py_result := λ A B k r,
  match r with
  | Returns a => k a
  | Raises e => Raises e
  end.

(** A Python [float]: a finite double is the rational it denotes. *)
Inductive py_float : Type :=
  | Finite (q : Q)
  | Infinite
  | NaN.

(** What [json.load] can produce. *)
Inductive json : Type :=
  | JNull
  | JBool (b : bool)
  | JInt (z : Z)
  | JFloat (f : py_float)
  | JStr (s : string)
  | JArr (l : list json)
  | JObj (m : gmap string json).

(** [isinstance(v, dict)], returning the dictionary. *)
Definition as_dict (v : json) : option (gmap string json) :=
  match v with
  | JObj m => Some m
  | _ => None
  end.

(** ** overlay.py, class DraggableOverlay *)

Module Overlay.

(** [root.winfo_screenwidth()] and [root.winfo_screenheight()]. *)
Record screen := Screen {
  screen_width : Z;
  screen_height : Z;
}.

(** A Tk pointer event: widget-local and absolute coordinates. *)
Record event := Event {
  ev_x : Z;
  ev_y : Z;
  x_root : Z;
  y_root : Z;
}.

(** The [Toplevel] window, by the geometry last requested for it
    ([f"{width}x{height}+{x}+{y}"]).  [winfo_x()] and [winfo_y()] are read
    back from it. *)
Record toplevel := Toplevel {
  geom_width : Z;
  geom_height : Z;
  geom_x : Z;
  geom_y : Z;
}.

Definition winfo_x (t : toplevel) : Z := geom_x t.
Definition winfo_y (t : toplevel) : Z := geom_y t.

(** The closure [_callback] that [registerRect] passes as [on_rect_update],
    by the variables it captures. *)
Record rect_callback := RectCallback {
  cb_rect_id : string;
  cb_rect_label : string;
}.

(** The instance attributes of [DraggableOverlay.__init__] (colours, font and
    alpha, which only reach the toolkit, are left out).  [canvas] exists
    exactly when [overlay] does: [show] creates both and [hide] drops both.
    [resize_handle] holds the coordinates of the handle item, [label_widget]
    the text of the label frame.  [calls] is the list of argument tuples with
    which [self.callback] has been called, oldest first. *)
Record DraggableOverlay := Build {
  x : Z;
  y : Z;
  width : Z;
  height : Z;
  label : string;
  callback : option rect_callback;
  draggable : bool;
  resizable : bool;
  resize_handle_size : Z;
  dragging : bool;
  resizing : bool;
  start_x : Z;
  start_y : Z;
  offset_x : Z;
  offset_y : Z;
  start_width : Z;
  start_height : Z;
  overlay : option toplevel;
  label_widget : option string;
  resize_handle : option (Z * Z * Z * Z);
  visible : bool;
  calls : list (Z * Z * Z * Z);
}.

(** Attribute assignments. *)
Definition set_position (nx ny : Z) (o : DraggableOverlay) : DraggableOverlay :=
  let 'Build _ _ w h l cb dg rz hs d r sx sy ox oy sw sh ov lw rh v c := o in
  Build nx ny w h l cb dg rz hs d r sx sy ox oy sw sh ov lw rh v c.

Definition set_size (nw nh : Z) (o : DraggableOverlay) : DraggableOverlay :=
  let 'Build x y _ _ l cb dg rz hs d r sx sy ox oy sw sh ov lw rh v c := o in
  Build x y nw nh l cb dg rz hs d r sx sy ox oy sw sh ov lw rh v c.

Definition set_label (nl : string) (o : DraggableOverlay) : DraggableOverlay :=
  let 'Build x y w h _ cb dg rz hs d r sx sy ox oy sw sh ov lw rh v c := o in
  Build x y w h nl cb dg rz hs d r sx sy ox oy sw sh ov lw rh v c.

Definition set_dragging (b : bool) (o : DraggableOverlay) : DraggableOverlay :=
  let 'Build x y w h l cb dg rz hs _ r sx sy ox oy sw sh ov lw rh v c := o in
  Build x y w h l cb dg rz hs b r sx sy ox oy sw sh ov lw rh v c.

Definition set_resizing (b : bool) (o : DraggableOverlay) : DraggableOverlay :=
  let 'Build x y w h l cb dg rz hs d _ sx sy ox oy sw sh ov lw rh v c := o in
  Build x y w h l cb dg rz hs d b sx sy ox oy sw sh ov lw rh v c.

Definition set_start (nsx nsy : Z) (o : DraggableOverlay) : DraggableOverlay :=
  let 'Build x y w h l cb dg rz hs d r _ _ ox oy sw sh ov lw rh v c := o in
  Build x y w h l cb dg rz hs d r nsx nsy ox oy sw sh ov lw rh v c.

Definition set_offset (nox noy : Z) (o : DraggableOverlay) : DraggableOverlay :=
  let 'Build x y w h l cb dg rz hs d r sx sy _ _ sw sh ov lw rh v c := o in
  Build x y w h l cb dg rz hs d r sx sy nox noy sw sh ov lw rh v c.

Definition set_start_size (nsw nsh : Z) (o : DraggableOverlay) : DraggableOverlay :=
  let 'Build x y w h l cb dg rz hs d r sx sy ox oy _ _ ov lw rh v c := o in
  Build x y w h l cb dg rz hs d r sx sy ox oy nsw nsh ov lw rh v c.

Definition set_overlay (nov : option toplevel) (o : DraggableOverlay) : DraggableOverlay :=
  let 'Build x y w h l cb dg rz hs d r sx sy ox oy sw sh _ lw rh v c := o in
  Build x y w h l cb dg rz hs d r sx sy ox oy sw sh nov lw rh v c.

Definition set_label_widget (nlw : option string) (o : DraggableOverlay) : DraggableOverlay :=
  let 'Build x y w h l cb dg rz hs d r sx sy ox oy sw sh ov _ rh v c := o in
  Build x y w h l cb dg rz hs d r sx sy ox oy sw sh ov nlw rh v c.

Definition set_resize_handle (nrh : option (Z * Z * Z * Z)) (o : DraggableOverlay)
  : DraggableOverlay :=
  let 'Build x y w h l cb dg rz hs d r sx sy ox oy sw sh ov lw _ v c := o in
  Build x y w h l cb dg rz hs d r sx sy ox oy sw sh ov lw nrh v c.

Definition set_visible (b : bool) (o : DraggableOverlay) : DraggableOverlay :=
  let 'Build x y w h l cb dg rz hs d r sx sy ox oy sw sh ov lw rh _ c := o in
  Build x y w h l cb dg rz hs d r sx sy ox oy sw sh ov lw rh b c.

Definition record_call (a : Z * Z * Z * Z) (o : DraggableOverlay) : DraggableOverlay :=
  let 'Build x y w h l cb dg rz hs d r sx sy ox oy sw sh ov lw rh v c := o in
  Build x y w h l cb dg rz hs d r sx sy ox oy sw sh ov lw rh v (c ++ [a]).

(** The keyword arguments of [create_overlay] that the model keeps, with the
    defaults of [__init__]. *)
Record style := Style {
  st_draggable : bool;
  st_resizable : bool;
  st_resize_handle_size : Z;
}.

Definition default_style : style := Style true true 10.

(** [DraggableOverlay.__init__]: the geometry is stored as given. *)
Definition __init__ (x y width height : Z) (label : string)
    (on_rect_update : option rect_callback) (st : style) : DraggableOverlay :=
  {| x := x; y := y; width := width; height := height; label := label;
     callback := on_rect_update;
     draggable := st_draggable st; resizable := st_resizable st;
     resize_handle_size := st_resize_handle_size st;
     dragging := false; resizing := false;
     start_x := 0; start_y := 0; offset_x := 0; offset_y := 0;
     start_width := 0; start_height := 0;
     overlay := None; label_widget := None; resize_handle := None;
     visible := false; calls := [] |}.

(** [get_position]. *)
Definition get_position (o : DraggableOverlay) : Z * Z * Z * Z :=
  (x o, y o, width o, height o).

Definition _update_geometry (o : DraggableOverlay) : DraggableOverlay :=
  match overlay o with
  | Some _ => set_overlay (Some (Toplevel (width o) (height o) (x o) (y o))) o
  | None => o
  end.

Definition _create_resize_handle (o : DraggableOverlay) : DraggableOverlay :=
  match overlay o with
  | None => o
  | Some _ =>
      if negb (resizable o) then o
      else
        let handle_size := resize_handle_size o in
        set_resize_handle
          (Some (width o - handle_size, height o - handle_size, width o, height o)) o
  end.

Definition _create_label (o : DraggableOverlay) : DraggableOverlay :=
  match overlay o with
  | None => o
  | Some _ => set_label_widget (Some (label o)) o
  end.

(** [_notify_callback]: an exception of the callback is caught and printed,
    so the call is all that is left of it here. *)
Definition _notify_callback (o : DraggableOverlay) : DraggableOverlay :=
  match callback o with
  | Some _ => record_call (x o, y o, width o, height o) o
  | None => o
  end.

(** Truth value of a string: [if self.label:]. *)
Definition truthy (s : string) : bool := negb (String.eqb s "").

Definition show (o : DraggableOverlay) : DraggableOverlay :=
  if visible o then o
  else
    let o := set_overlay (Some (Toplevel (width o) (height o) (x o) (y o))) o in
    let o := if truthy (label o) then _create_label o else o in
    let o := if resizable o then _create_resize_handle o else o in
    set_visible true o.

Definition hide (o : DraggableOverlay) : DraggableOverlay :=
  if negb (visible o) || negb (bool_decide (is_Some (overlay o))) then o
  else
    set_visible false
      (set_resize_handle None (set_label_widget None (set_overlay None o))).

Definition update_position (nx ny : Z) (notify : bool) (o : DraggableOverlay)
  : DraggableOverlay :=
  let o := set_position nx ny o in
  if visible o then
    let o := _update_geometry o in
    if notify then _notify_callback o else o
  else o.

Definition update_size (w h : Z) (notify : bool) (o : DraggableOverlay)
  : DraggableOverlay :=
  let min_width := 50 in
  let min_height := 50 in
  let w := Z.max min_width w in
  let h := Z.max min_height h in
  let o := set_size w h o in
  if visible o then
    let o := _update_geometry o in
    let o := if bool_decide (is_Some (label_widget o)) then _create_label o else o in
    let o := if resizable o then _create_resize_handle o else o in
    if notify then _notify_callback o else o
  else o.

Definition update_label (l : string) (o : DraggableOverlay) : DraggableOverlay :=
  let o := set_label l o in
  if visible o then
    if truthy (label o) then _create_label o
    else if bool_decide (is_Some (label_widget o)) then set_label_widget None o
    else o
  else o.

Definition _is_in_resize_handle (px py : Z) (o : DraggableOverlay) : bool :=
  if negb (resizable o) then false
  else
    let handle_size := resize_handle_size o in
    (width o - handle_size <=? px) && (height o - handle_size <=? py).

(** [_on_mouse_press].  The handler reads [self.overlay.winfo_x()] after it
    has set [dragging] and the start coordinates; without a window that read
    raises and the assignments before it stay. *)
Definition _on_mouse_press (ev : event) (o : DraggableOverlay) : DraggableOverlay :=
  if _is_in_resize_handle (ev_x ev) (ev_y ev) o then o
  else if draggable o && negb (resizing o) then
    let o := set_dragging true o in
    let o := set_start (x_root ev) (y_root ev) o in
    match overlay o with
    | Some t => set_offset (winfo_x t) (winfo_y t) o
    | None => o
    end
  else o.

Definition _on_resize_press (ev : event) (o : DraggableOverlay) : DraggableOverlay :=
  if negb (resizable o) then o
  else
    let o := set_dragging false o in
    let o := set_resizing true o in
    let o := set_start (x_root ev) (y_root ev) o in
    let o := set_start_size (width o) (height o) o in
    match overlay o with
    | Some t => set_offset (winfo_x t) (winfo_y t) o
    | None => o
    end.

Definition _on_resize_drag (scr : screen) (ev : event) (o : DraggableOverlay)
  : DraggableOverlay :=
  if negb (resizing o) || negb (resizable o) then o
  else
    let o := set_dragging false o in
    let delta_x := x_root ev - start_x o in
    let delta_y := y_root ev - start_y o in
    let new_width := start_width o + delta_x in
    let new_height := start_height o + delta_y in
    let min_width := 50 in
    let min_height := 50 in
    let new_width := Z.max min_width new_width in
    let new_height := Z.max min_height new_height in
    let max_width := screen_width scr - offset_x o in
    let max_height := screen_height scr - offset_y o in
    let new_width := Z.min new_width max_width in
    let new_height := Z.min new_height max_height in
    let o := set_size new_width new_height o in
    let o := _update_geometry o in
    let o :=
      match resize_handle o with
      | Some _ =>
          let handle_size := resize_handle_size o in
          set_resize_handle
            (Some (width o - handle_size, height o - handle_size, width o, height o)) o
      | None => o
      end in
    if bool_decide (is_Some (label_widget o)) then _create_label o else o.

Definition _on_mouse_drag_global (scr : screen) (ev : event) (o : DraggableOverlay)
  : DraggableOverlay :=
  if resizing o then _on_resize_drag scr ev o
  else if dragging o && draggable o then
    let delta_x := x_root ev - start_x o in
    let delta_y := y_root ev - start_y o in
    let new_x := offset_x o + delta_x in
    let new_y := offset_y o + delta_y in
    let new_x := Z.max 0 (Z.min new_x (screen_width scr - width o)) in
    let new_y := Z.max 0 (Z.min new_y (screen_height scr - height o)) in
    _update_geometry (set_position new_x new_y o)
  else o.

Definition _on_mouse_release_global (o : DraggableOverlay) : DraggableOverlay :=
  if resizing o then
    let o := set_resizing false o in
    let o := set_dragging false o in
    let o := _notify_callback o in
    if resizable o then _create_resize_handle o else o
  else if dragging o then
    let o := set_dragging false o in
    let o := set_resizing false o in
    _notify_callback o
  else o.

Definition _on_resize_release (o : DraggableOverlay) : DraggableOverlay :=
  _on_mouse_release_global o.

(** [create_overlay]: construct, then [show]. *)
Definition create_overlay (x y width height : Z) (label : string)
    (on_rect_update : option rect_callback) (st : style) : DraggableOverlay :=
  show (__init__ x y width height label on_rect_update st).

(** *** Pointer events as the toolkit delivers them

    The canvas binds the three handlers for the whole widget and, through
    [tag_bind], three more for the handle item.  For an event on the handle
    item Tk runs the item binding first and the widget binding after it; the
    label frame carries the widget handlers only. *)
Inductive target := OnHandle | OnCanvas.

Inductive pointer :=
  | Press (t : target) (ev : event)
  | Motion (t : target) (ev : event)
  | Release (t : target) (ev : event).

Definition deliver (scr : screen) (p : pointer) (o : DraggableOverlay) : DraggableOverlay :=
  match p with
  | Press OnHandle ev => _on_mouse_press ev (_on_resize_press ev o)
  | Press OnCanvas ev => _on_mouse_press ev o
  | Motion OnHandle ev => _on_mouse_drag_global scr ev (_on_resize_drag scr ev o)
  | Motion OnCanvas ev => _on_mouse_drag_global scr ev o
  | Release OnHandle ev => _on_mouse_release_global (_on_resize_release o)
  | Release OnCanvas ev => _on_mouse_release_global o
  end.

Definition run (scr : screen) (ps : list pointer) (o : DraggableOverlay) : DraggableOverlay :=
  fold_left (λ o p, deliver scr p o) ps o.

Definition is_release (p : pointer) : bool :=
  match p with
  | Release _ _ => true
  | _ => false
  end.

(** The interaction mode of section 4.2: a drag or a resize is in progress. *)
Definition in_progress (o : DraggableOverlay) : bool := dragging o || resizing o.

(** The calls the specification allows for a sequence of pointer events: one
    for each release that ends a drag or a resize, with the geometry the
    marker has at that release, and none for anything else. *)
Fixpoint expected_calls (scr : screen) (ps : list pointer) (o : DraggableOverlay)
  : list (Z * Z * Z * Z) :=
  match ps with
  | [] => []
  | p :: ps =>
      (if is_release p && in_progress o then [get_position o] else [])
        ++ expected_calls scr ps (deliver scr p o)
  end.

(** *** The marker and its widgets

    What the methods keep true between calls: the window exists exactly when
    the marker is visible and has the marker's geometry; the label frame
    exists exactly when the label is not empty and shows it; the handle
    exists exactly when the marker is resizable and sits in the bottom-right
    corner.  A hidden marker has no widget at all. *)
Definition consistent (o : DraggableOverlay) : Prop :=
  match overlay o with
  | Some t =>
      visible o = true
      ∧ t = Toplevel (width o) (height o) (x o) (y o)
      ∧ label_widget o = (if truthy (label o) then Some (label o) else None)
      ∧ resize_handle o
        = (if resizable o
           then Some (width o - resize_handle_size o, height o - resize_handle_size o,
                      width o, height o)
           else None)
  | None => visible o = false ∧ label_widget o = None ∧ resize_handle o = None
  end.

(** Everything that can happen to a marker after its construction: a call of
    one of its public methods, or a pointer event. *)
Inductive method :=
  | Show
  | Hide
  | UpdatePosition (nx ny : Z) (notify : bool)
  | UpdateSize (w h : Z) (notify : bool)
  | UpdateLabel (l : string)
  | Pointer (p : pointer).

Definition call (scr : screen) (m : method) (o : DraggableOverlay) : DraggableOverlay :=
  match m with
  | Show => show o
  | Hide => hide o
  | UpdatePosition nx ny notify => update_position nx ny notify o
  | UpdateSize w h notify => update_size w h notify o
  | UpdateLabel l => update_label l o
  | Pointer p => deliver scr p o
  end.

Definition calls_in_order (scr : screen) (ms : list method) (o : DraggableOverlay)
  : DraggableOverlay :=
  fold_left (λ o m, call scr m o) ms o.

(** The clamp of the drag handler. *)
Definition clamp (v limit : Z) : Z := Z.max 0 (Z.min v limit).

End Overlay.

(** ** overlay.py, class DraggablePoint *)

Module Point.

Import Overlay(screen, Screen, screen_width, screen_height,
               event, Event, ev_x, ev_y, x_root, y_root,
               toplevel, Toplevel, geom_width, geom_height, geom_x, geom_y,
               winfo_x, winfo_y, truthy).

(** The closure [_callback] that [registerPosition] passes as [callback]. *)
Record point_callback := PointCallback {
  cb_point_id : string;
  cb_point_label : string;
}.

(** The instance attributes of [DraggablePoint.__init__] (colours, font and
    alpha are left out).  [x], [y] is the point itself; the window is a
    square of side [window_size] centred on it. *)
Record DraggablePoint := Build {
  x : Z;
  y : Z;
  label : string;
  draggable : bool;
  callback : option point_callback;
  point_size : Z;
  label_offset_x : Z;
  label_offset_y : Z;
  dragging : bool;
  start_x : Z;
  start_y : Z;
  offset_x : Z;
  offset_y : Z;
  window_size : Z;
  overlay : option toplevel;
  label_widget : option string;
  visible : bool;
  calls : list (Z * Z);
}.

Definition set_position (nx ny : Z) (p : DraggablePoint) : DraggablePoint :=
  let 'Build _ _ l dg cb ps lx ly d sx sy ox oy ws ov lw v c := p in
  Build nx ny l dg cb ps lx ly d sx sy ox oy ws ov lw v c.

Definition set_label (nl : string) (p : DraggablePoint) : DraggablePoint :=
  let 'Build x y _ dg cb ps lx ly d sx sy ox oy ws ov lw v c := p in
  Build x y nl dg cb ps lx ly d sx sy ox oy ws ov lw v c.

Definition set_dragging (b : bool) (p : DraggablePoint) : DraggablePoint :=
  let 'Build x y l dg cb ps lx ly _ sx sy ox oy ws ov lw v c := p in
  Build x y l dg cb ps lx ly b sx sy ox oy ws ov lw v c.

Definition set_start (nsx nsy : Z) (p : DraggablePoint) : DraggablePoint :=
  let 'Build x y l dg cb ps lx ly d _ _ ox oy ws ov lw v c := p in
  Build x y l dg cb ps lx ly d nsx nsy ox oy ws ov lw v c.

Definition set_offset (nox noy : Z) (p : DraggablePoint) : DraggablePoint :=
  let 'Build x y l dg cb ps lx ly d sx sy _ _ ws ov lw v c := p in
  Build x y l dg cb ps lx ly d sx sy nox noy ws ov lw v c.

Definition set_window_size (nws : Z) (p : DraggablePoint) : DraggablePoint :=
  let 'Build x y l dg cb ps lx ly d sx sy ox oy _ ov lw v c := p in
  Build x y l dg cb ps lx ly d sx sy ox oy nws ov lw v c.

Definition set_overlay (nov : option toplevel) (p : DraggablePoint) : DraggablePoint :=
  let 'Build x y l dg cb ps lx ly d sx sy ox oy ws _ lw v c := p in
  Build x y l dg cb ps lx ly d sx sy ox oy ws nov lw v c.

Definition set_label_widget (nlw : option string) (p : DraggablePoint) : DraggablePoint :=
  let 'Build x y l dg cb ps lx ly d sx sy ox oy ws ov _ v c := p in
  Build x y l dg cb ps lx ly d sx sy ox oy ws ov nlw v c.

Definition set_visible (b : bool) (p : DraggablePoint) : DraggablePoint :=
  let 'Build x y l dg cb ps lx ly d sx sy ox oy ws ov lw _ c := p in
  Build x y l dg cb ps lx ly d sx sy ox oy ws ov lw b c.

Definition record_call (a : Z * Z) (p : DraggablePoint) : DraggablePoint :=
  let 'Build x y l dg cb ps lx ly d sx sy ox oy ws ov lw v c := p in
  Build x y l dg cb ps lx ly d sx sy ox oy ws ov lw v (c ++ [a]).

Record style := Style {
  st_draggable : bool;
  st_point_size : Z;
  st_label_offset_x : Z;
  st_label_offset_y : Z;
}.

Definition default_style : style := Style true 8 10 (-25).

Definition __init__ (x y : Z) (label : string) (callback : option point_callback)
    (st : style) : DraggablePoint :=
  let point_size := st_point_size st in
  let min_size := Z.max 100 (point_size * 4) in
  let label_margin :=
    Z.max (Z.abs (st_label_offset_x st)) (Z.abs (st_label_offset_y st)) + 50 in
  {| x := x; y := y; label := label; draggable := st_draggable st;
     callback := callback; point_size := point_size;
     label_offset_x := st_label_offset_x st; label_offset_y := st_label_offset_y st;
     dragging := false; start_x := 0; start_y := 0; offset_x := 0; offset_y := 0;
     window_size := Z.max min_size (label_margin * 2);
     overlay := None; label_widget := None; visible := false; calls := [] |}.

Definition get_position (p : DraggablePoint) : Z * Z := (x p, y p).

(** The geometry request common to [_update_geometry] and [_create_label]:
    the window's top-left corner is the point minus half the window size. *)
Definition place_window (p : DraggablePoint) : DraggablePoint :=
  let window_x := x p - Z.div (window_size p) 2 in
  let window_y := y p - Z.div (window_size p) 2 in
  set_overlay (Some (Toplevel (window_size p) (window_size p) window_x window_y)) p.

(** [_create_label(allow_resize)].  [req] is the size the toolkit reports for
    the label frame ([winfo_reqwidth()], [winfo_reqheight()]). *)
Definition _create_label (req : Z * Z) (allow_resize : bool) (p : DraggablePoint)
  : DraggablePoint :=
  match overlay p with
  | None => p
  | Some _ =>
      let center_x := Z.div (window_size p) 2 in
      let center_y := Z.div (window_size p) 2 in
      let label_x := center_x + label_offset_x p in
      let label_y := center_y + label_offset_y p in
      let p :=
        if allow_resize then
          let label_right := label_x + req.1 in
          let label_bottom := label_y + req.2 in
          let min_x := Z.min 0 label_x in
          let min_y := Z.min 0 label_y in
          let max_x := Z.max (window_size p) label_right in
          let max_y := Z.max (window_size p) label_bottom in
          let new_size := Z.max (max_x - min_x) (max_y - min_y) + 20 in
          if window_size p <? new_size then place_window (set_window_size new_size p)
          else p
        else p in
      set_label_widget (Some (label p)) p
  end.

(** [_update_geometry(update_label)]. *)
Definition _update_geometry (req : Z * Z) (update_label : bool) (p : DraggablePoint)
  : DraggablePoint :=
  match overlay p with
  | None => p
  | Some _ =>
      let p := place_window p in
      if update_label && truthy (label p) && bool_decide (is_Some (label_widget p)) then p
      else if update_label && truthy (label p) && negb (bool_decide (is_Some (label_widget p)))
      then _create_label req false p
      else p
  end.

Definition _notify_callback (p : DraggablePoint) : DraggablePoint :=
  match callback p with
  | Some _ => record_call (x p, y p) p
  | None => p
  end.

Definition show (req : Z * Z) (p : DraggablePoint) : DraggablePoint :=
  if visible p then p
  else
    let p := place_window p in
    let p := if truthy (label p) then _create_label req true p else p in
    set_visible true p.

Definition hide (p : DraggablePoint) : DraggablePoint :=
  if negb (visible p) || negb (bool_decide (is_Some (overlay p))) then p
  else set_visible false (set_label_widget None (set_overlay None p)).

Definition update_position (req : Z * Z) (nx ny : Z) (notify : bool) (p : DraggablePoint)
  : DraggablePoint :=
  let p := set_position nx ny p in
  if visible p then
    let p := _update_geometry req true p in
    if notify then _notify_callback p else p
  else p.

Definition update_label (req : Z * Z) (l : string) (p : DraggablePoint) : DraggablePoint :=
  let p := set_label l p in
  if visible p then
    if truthy (label p) then _create_label req true p
    else if bool_decide (is_Some (label_widget p)) then set_label_widget None p
    else p
  else p.

Definition _on_mouse_press (ev : event) (p : DraggablePoint) : DraggablePoint :=
  if draggable p then
    let p := set_dragging true p in
    let p := set_start (x_root ev) (y_root ev) p in
    match overlay p with
    | Some t => set_offset (winfo_x t) (winfo_y t) p
    | None => p
    end
  else p.

Definition _on_mouse_drag (scr : screen) (req : Z * Z) (ev : event) (p : DraggablePoint)
  : DraggablePoint :=
  if dragging p && draggable p then
    let delta_x := x_root ev - start_x p in
    let delta_y := y_root ev - start_y p in
    let new_window_x := offset_x p + delta_x in
    let new_window_y := offset_y p + delta_y in
    let new_window_x := Z.max 0 (Z.min new_window_x (screen_width scr - window_size p)) in
    let new_window_y := Z.max 0 (Z.min new_window_y (screen_height scr - window_size p)) in
    let new_x := new_window_x + Z.div (window_size p) 2 in
    let new_y := new_window_y + Z.div (window_size p) 2 in
    let new_x := Z.max (point_size p) (Z.min new_x (screen_width scr - point_size p)) in
    let new_y := Z.max (point_size p) (Z.min new_y (screen_height scr - point_size p)) in
    _update_geometry req true (set_position new_x new_y p)
  else p.

Definition _on_mouse_release (p : DraggablePoint) : DraggablePoint :=
  if dragging p then _notify_callback (set_dragging false p)
  else p.

(** [create_point]: construct, then [show]. *)
Definition create_point (req : Z * Z) (x y : Z) (label : string)
    (callback : option point_callback) (st : style) : DraggablePoint :=
  show req (__init__ x y label callback st).

(** *** Pointer events and method calls on a point

    [_bind_events] binds the three handlers on the canvas and on the label
    frame; there is no item binding. *)
Inductive pointer :=
  | Press (ev : event)
  | Motion (ev : event)
  | Release (ev : event).

Definition deliver (scr : screen) (req : Z * Z) (e : pointer) (p : DraggablePoint)
  : DraggablePoint :=
  match e with
  | Press ev => _on_mouse_press ev p
  | Motion ev => _on_mouse_drag scr req ev p
  | Release ev => _on_mouse_release p
  end.

Definition run (scr : screen) (req : Z * Z) (es : list pointer) (p : DraggablePoint)
  : DraggablePoint :=
  fold_left (λ p e, deliver scr req e p) es p.

Definition is_release (e : pointer) : bool :=
  match e with
  | Release _ => true
  | _ => false
  end.

(** The calls allowed for a sequence of pointer events: one for each release
    that ends a drag, with the point's coordinates at that release. *)
Fixpoint expected_calls (scr : screen) (req : Z * Z) (es : list pointer) (p : DraggablePoint)
  : list (Z * Z) :=
  match es with
  | [] => []
  | e :: es =>
      (if is_release e && dragging p then [get_position p] else [])
        ++ expected_calls scr req es (deliver scr req e p)
  end.

(** Everything that can happen to a point after its construction.  Each
    method call comes with the size the toolkit reports for the label frame
    at that moment. *)
Inductive method :=
  | Show (req : Z * Z)
  | Hide
  | UpdatePosition (req : Z * Z) (nx ny : Z) (notify : bool)
  | UpdateLabel (req : Z * Z) (l : string)
  | Pointer (req : Z * Z) (e : pointer).

Definition call (scr : screen) (m : method) (p : DraggablePoint) : DraggablePoint :=
  match m with
  | Show req => show req p
  | Hide => hide p
  | UpdatePosition req nx ny notify => update_position req nx ny notify p
  | UpdateLabel req l => update_label req l p
  | Pointer req e => deliver scr req e p
  end.

Definition calls_in_order (scr : screen) (ms : list method) (p : DraggablePoint)
  : DraggablePoint :=
  fold_left (λ p m, call scr m p) ms p.

(** The point and its widgets between calls: the window exists exactly when
    the point is visible and is the square of side [window_size] centred on
    the point; the label frame exists exactly when the label is not empty. *)
Definition consistent (p : DraggablePoint) : Prop :=
  match overlay p with
  | Some t =>
      visible p = true
      ∧ t = Toplevel (window_size p) (window_size p)
              (x p - Z.div (window_size p) 2) (y p - Z.div (window_size p) 2)
      ∧ label_widget p = (if truthy (label p) then Some (label p) else None)
  | None => visible p = false ∧ label_widget p = None
  end.

End Point.

(** ** __init__.py, class Desktop_overlay_manager: the marker registry

    Every public method wraps a local function ([_create], [_read], [_hide],
    [_show], [_destroy]) and hands it to [_call_in_tk_thread].  The functions
    of this module are those local functions, as state transformers on the
    attributes they touch; [Dispatcher] below is the queue that runs them. *)

Module Manager.

Definition DEFAULT_RECT : gmap string json :=
  {[ "x" := JInt 120; "y" := JInt 120; "width" := JInt 240; "height" := JInt 160 ]}.

Definition DEFAULT_POINT : gmap string json :=
  {[ "x" := JInt 160; "y" := JInt 160 ]}.

#[local] Instance json_inhabited : Inhabited json := populate JNull.

(** [_rects], [_points]: the live markers; [_rect_configs], [_point_configs]:
    the two namespaces of the persisted document, as loaded (their records
    are whatever the file held). *)
Record manager := Build {
  _rects : gmap string Overlay.DraggableOverlay;
  _points : gmap string Point.DraggablePoint;
  _rect_configs : gmap string json;
  _point_configs : gmap string json;
}.

Definition set_rects (r : gmap string Overlay.DraggableOverlay) (m : manager) : manager :=
  Build r (_points m) (_rect_configs m) (_point_configs m).

Definition set_points (p : gmap string Point.DraggablePoint) (m : manager) : manager :=
  Build (_rects m) p (_rect_configs m) (_point_configs m).



(** [config.get(key, default)]: an attribute error when [config] is not a
    dictionary. *)
Definition dict_get (config : json) (key : string) (dflt : json) : py_result json :=
  match config with
  | JObj d => Returns (default dflt (d !! key))
  | _ => Raises AttributeError
  end.

(** Geometry attributes of a marker are integers in this model.  A merged
    value that is not an [int] is rejected where the code would first hand
    it to the toolkit (the geometry string) or to [max]. *)
Definition expect_int (v : json) : py_result Z :=
  match v with
  | JInt z => Returns z
  | _ => Raises TclError
  end.

(** Labels are strings in this model. *)
Definition expect_str (v : json) : py_result string :=
  match v with
  | JStr s => Returns s
  | _ => Raises TypeError
  end.

(** [explicit if explicit is not None else config.get(key, default)]. *)
Definition merged (explicit : option Z) (config : json) (key : string) (dflt : json)
  : py_result Z :=
  match explicit with
  | Some v => Returns v
  | None => v ← dict_get config key dflt; expect_int v
  end.

(** [label or config.get("label", marker_id)]. *)
Definition merged_label (label : string) (config : json) (marker_id : string)
  : py_result string :=
  if Overlay.truthy label then Returns label
  else v ← dict_get config "label" (JStr marker_id); expect_str v.

(** The local function [_create] of [registerRect]. *)
Definition registerRect (rect_id : string) (label : string)
    (x y width height : option Z) (st : Overlay.style) (m : manager)
  : py_result manager :=
  let config := default (JObj ∅) (_rect_configs m !! rect_id) in
  rx ← merged x config "x" (DEFAULT_RECT !!! "x");
  ry ← merged y config "y" (DEFAULT_RECT !!! "y");
  rwidth ← merged width config "width" (DEFAULT_RECT !!! "width");
  rheight ← merged height config "height" (DEFAULT_RECT !!! "height");
  rect_label ← merged_label label config rect_id;
  let _callback := Overlay.RectCallback rect_id rect_label in
  match _rects m !! rect_id with
  | None =>
      let overlay :=
        Overlay.create_overlay rx ry rwidth rheight rect_label (Some _callback) st in
      Returns (set_rects (<[rect_id := overlay]> (_rects m)) m)
  | Some overlay =>
      let overlay := Overlay.update_position rx ry false overlay in
      let overlay := Overlay.update_size rwidth rheight false overlay in
      let overlay := Overlay.update_label rect_label overlay in
      let overlay := Overlay.show overlay in
      Returns (set_rects (<[rect_id := overlay]> (_rects m)) m)
  end.

(** The local function [_create] of [registerPosition].  [measure] is the
    size the toolkit reports for the frame of a label. *)
Definition registerPosition (measure : string → Z * Z) (point_id : string) (label : string)
    (x y : option Z) (st : Point.style) (m : manager) : py_result manager :=
  let config := default (JObj ∅) (_point_configs m !! point_id) in
  px ← merged x config "x" (DEFAULT_POINT !!! "x");
  py ← merged y config "y" (DEFAULT_POINT !!! "y");
  point_label ← merged_label label config point_id;
  let _callback := Point.PointCallback point_id point_label in
  match _points m !! point_id with
  | None =>
      let point :=
        Point.create_point (measure point_label) px py point_label (Some _callback) st in
      Returns (set_points (<[point_id := point]> (_points m)) m)
  | Some point =>
      let point := Point.update_position (measure point_label) px py false point in
      let point := Point.update_label (measure point_label) point_label point in
      let point := Point.show (measure point_label) point in
      Returns (set_points (<[point_id := point]> (_points m)) m)
  end.



Section Getters.

(** [int(s)] for a string is Python's integer-literal parser, which is not
    part of the package. *)
Variable int_of_str : string → option Z.

(** [int(v)]. *)
Definition py_int (v : json) : py_result Z :=
  match v with
  | JInt z => Returns z
  | JBool b => Returns (Z.b2z b)
  | JFloat (Finite q) => Returns (Z.quot (Qnum q) (Z.pos (Qden q)))
  | JFloat Infinite => Raises OverflowError
  | JFloat NaN => Raises ValueError
  | JStr s =>
      match int_of_str s with
      | Some z => Returns z
      | None => Raises ValueError
      end
  | JNull | JArr _ | JObj _ => Raises TypeError
  end.

(** The integer [int(v)] returns, when it returns. *)
Definition int_value (v : json) : option Z :=
  match py_int v with
  | Returns z => Some z
  | Raises _ => None
  end.

(** [{k: int(v) for k, v in items if k in keys}].  The items are visited in
    the order of the list; the first conversion that raises ends the
    comprehension. *)
Fixpoint int_comprehension (keys : gset string) (items : list (string * json))
  : py_result (gmap string Z) :=
  match items with
  | [] => Returns ∅
  | (k, v) :: rest =>
      if bool_decide (k ∈ keys) then
        z ← py_int v;
        d ← int_comprehension keys rest;
        Returns (<[k := z]> d)
      else int_comprehension keys rest
  end.

Definition rect_keys : gset string := {[ "x"; "y"; "width"; "height" ]}.
Definition point_keys : gset string := {[ "x"; "y" ]}.

(** [saved = configs[marker_id].copy()] followed by the comprehension.
    [gmap] does not keep the order of the keys in the file; the items are
    taken in the order of [map_to_list]. *)
Definition read_saved (keys : gset string) (record : json) : py_result (gmap string Z) :=
  match record with
  | JObj saved => int_comprehension keys (map_to_list saved)
  | _ => Raises AttributeError
  end.

(** The local function [_read] of [getRect]. *)
Definition getRect (rect_id : string) (m : manager) : py_result (option (gmap string Z)) :=
  match _rects m !! rect_id with
  | Some overlay =>
      let '(x, y, width, height) := Overlay.get_position overlay in
      Returns (Some {[ "x" := x; "y" := y; "width" := width; "height" := height ]})
  | None =>
      match _rect_configs m !! rect_id with
      | Some record => d ← read_saved rect_keys record; Returns (Some d)
      | None => Returns None
      end
  end.

(** The local function [_read] of [getPosition]. *)
Definition getPosition (point_id : string) (m : manager)
  : py_result (option (gmap string Z)) :=
  match _points m !! point_id with
  | Some point =>
      let '(x, y) := Point.get_position point in
      Returns (Some {[ "x" := x; "y" := y ]})
  | None =>
      match _point_configs m !! point_id with
      | Some record => d ← read_saved point_keys record; Returns (Some d)
      | None => Returns None
      end
  end.

End Getters.





(** The dictionary a getter builds from a live rectangle or point. *)
Definition rect_dict (a : Z * Z * Z * Z) : gmap string Z :=
  let '(x, y, width, height) := a in
  {[ "x" := x; "y" := y; "width" := width; "height" := height ]}.


(** The local functions of [hideAll], [showAll] and [destroy]. *)
Definition hideAll (m : manager) : manager :=
  set_points (Point.hide <$> _points m) (set_rects (Overlay.hide <$> _rects m) m).

Definition showAll (measure : string → Z * Z) (m : manager) : manager :=
  set_points ((λ p, Point.show (measure (Point.label p)) p) <$> _points m)
    (set_rects (Overlay.show <$> _rects m) m).

Definition destroy (m : manager) : manager :=
  set_points ∅ (set_rects ∅ m).

End Manager.

(** ** __init__.py: the command queue and the Tk thread

    [World] is the state that only the Tk thread touches (the attributes of
    [Manager] and the toolkit behind them) and [Value] what a queued function
    returns.  A queued function is a state transformer on [World] that returns
    or raises.  A [Future] is an object with identity: the store [futures]
    maps the identity to the state of the object, and a queue entry holds the
    identity next to the function ([args] and [kwargs] are always empty). *)

Module Dispatcher.

Section Dispatcher.

Context {World Value : Type}.

Definition closure : Type := World → py_result Value * World.

(** [concurrent.futures.Future], as far as this code uses it. *)
Inductive future :=
  | Pending
  | Result (v : Value)
  | Exception (e : py_exn).

(** [Future.set_result] and [Future.set_exception] refuse a future that is
    already done. *)
Definition set_result (v : Value) (f : future) : py_result future :=
  match f with
  | Pending => Returns (Result v)
  | _ => Raises InvalidStateError
  end.

Definition set_exception (e : py_exn) (f : future) : py_result future :=
  match f with
  | Pending => Returns (Exception e)
  | _ => Raises InvalidStateError
  end.

(** [Future.result()]: [None] while the caller is still blocked. *)
Definition result (f : future) : option (py_result Value) :=
  match f with
  | Pending => None
  | Result v => Some (Returns v)
  | Exception e => Some (Raises e)
  end.

(** [threading.Thread]: [is_alive()] holds in state [Alive] only.  A thread
    whose target raised has ended with that exception. *)
Inductive thread :=
  | NotStarted
  | Alive
  | Exited
  | Crashed (e : py_exn).

Record tk := Build {
  _tk_queue : list (nat * closure);
  futures : gmap nat future;
  _stop_event : bool;
  _tk_thread : thread;
  world : World;
}.

Definition set_queue (q : list (nat * closure)) (s : tk) : tk :=
  Build q (futures s) (_stop_event s) (_tk_thread s) (world s).

Definition set_futures (fs : gmap nat future) (s : tk) : tk :=
  Build (_tk_queue s) fs (_stop_event s) (_tk_thread s) (world s).

Definition set_stop_event (b : bool) (s : tk) : tk :=
  Build (_tk_queue s) (futures s) b (_tk_thread s) (world s).

Definition set_thread (t : thread) (s : tk) : tk :=
  Build (_tk_queue s) (futures s) (_stop_event s) t (world s).

Definition set_world (w : World) (s : tk) : tk :=
  Build (_tk_queue s) (futures s) (_stop_event s) (_tk_thread s) w.

(** A method call on the future object [fid]. *)
Definition on_future (op : future → py_result future) (fid : nat) (fs : gmap nat future)
  : py_result (gmap nat future) :=
  match fs !! fid with
  | Some f => f' ← op f; Returns (<[fid := f']> fs)
  | None => Raises AttributeError
  end.

Definition stopped : py_exn := RuntimeError "Tk loop already stopped".

(** The loop of [_drain_queue] over the entries that [get_nowait] will hand
    out, in order.  It ends when the queue is empty or when an exception
    leaves the method: one that [except Exception] does not catch, or one
    raised by the future's own methods, outside the [try]. *)
Fixpoint drain (set_exc : bool) (q : list (nat * closure)) (fs : gmap nat future) (w : World)
  : py_result unit * (list (nat * closure) * gmap nat future * World) :=
  match q with
  | [] => (Returns (), ([], fs, w))
  | (fid, func) :: q =>
      if set_exc then
        match on_future (set_exception stopped) fid fs with
        | Returns fs => drain set_exc q fs w
        | Raises e => (Raises e, (q, fs, w))
        end
      else
        let '(r, w) := func w in
        match r with
        | Returns v =>
            match on_future (set_result v) fid fs with
            | Returns fs => drain set_exc q fs w
            | Raises e => (Raises e, (q, fs, w))
            end
        | Raises exc =>
            if exn_is_Exception exc then
              match on_future (set_exception exc) fid fs with
              | Returns fs => drain set_exc q fs w
              | Raises e => (Raises e, (q, fs, w))
              end
            else (Raises exc, (q, fs, w))
        end
  end.

Definition _drain_queue (set_exc : bool) (s : tk) : py_result unit * tk :=
  let '(r, (q, fs, w)) := drain set_exc (_tk_queue s) (futures s) (world s) in
  (r, set_world w (set_futures fs (set_queue q s))).

(** The code of [_run_tk_loop] after the [while] loop: fail what is still
    queued, destroy the root window (its [TclError] is swallowed), return. *)
Definition leave_loop (s : tk) : tk :=
  let '(r, s) := _drain_queue true s in
  match r with
  | Returns _ => set_thread Exited s
  | Raises e => set_thread (Crashed e) s
  end.

(** One pass of the Tk thread through the head of the [while] loop of
    [_run_tk_loop].  [update] is what [root.update_idletasks()] and
    [root.update()] do in this pass: they run the pointer handlers on the
    world, or raise [TclError] ([None]).  Entries put on the queue while a
    drain is running are drained with it, so a pass is one step. *)
Definition worker_turn (update : World → option World) (s : tk) : tk :=
  match _tk_thread s with
  | Alive =>
      if _stop_event s then leave_loop s
      else
        let '(r, s) := _drain_queue false s in
        match r with
        | Raises e => set_thread (Crashed e) s
        | Returns _ =>
            match update (world s) with
            | Some w => set_world w s
            | None => leave_loop s
            end
        end
  | _ => s
  end.

(** [_ensure_tk_thread]: a thread that is not alive is replaced by a new one,
    which enters [_run_tk_loop] ([_root_ready] is left out). *)
Definition _ensure_tk_thread (s : tk) : tk :=
  match _tk_thread s with
  | Alive => s
  | _ => set_thread Alive s
  end.

(** [_call_in_tk_thread] up to and including [put]: a new future, pending,
    goes to the back of the queue with the function.  The caller then blocks
    in [future.result()], which is [wait] on the state it observes. *)
Definition submit (func : closure) (s : tk) : nat * tk :=
  let s := _ensure_tk_thread s in
  let fid := fresh (dom (futures s)) in
  (fid, set_queue (_tk_queue s ++ [(fid, func)]) (set_futures (<[fid := Pending]> (futures s)) s)).

Definition wait (fid : nat) (s : tk) : option (py_result Value) :=
  f ← futures s !! fid; result f.

(** [destroy] runs on the caller's thread in two parts: it submits
    [_destroy] and blocks; once that future is done it either re-raises or
    sets the stop event (the join that follows has a timeout and changes
    nothing here). *)
Definition destroy_submit (_destroy : closure) (s : tk) : nat * tk := submit _destroy s.

Definition destroy_resume (fid : nat) (s : tk) : tk :=
  match wait fid s with
  | Some (Returns _) => set_stop_event true s
  | _ => s
  end.

(** What the functions of a queue yield when they are run one after the
    other from world [w]: the reference against which the drain is stated. *)
Fixpoint run_in_order (q : list (nat * closure)) (w : World)
  : list (nat * py_result Value) * World :=
  match q with
  | [] => ([], w)
  | (fid, func) :: q =>
      let '(r, w) := func w in
      let '(rs, w) := run_in_order q w in
      ((fid, r) :: rs, w)
  end.

(** The state of a future that holds outcome [r]: [result] gives [r] back. *)
Definition completed (r : py_result Value) : future :=
  match r with
  | Returns v => Result v
  | Raises e => Exception e
  end.

(** A function whose exceptions are all instances of [Exception]. *)
Definition raises_only_Exception (func : closure) : Prop :=
  ∀ w e, (func w).1 = Raises e → exn_is_Exception e = true.

(** The entries of the queue hold distinct futures, all pending: what
    [submit] establishes and the drain relies on. *)
Definition queue_ok (s : tk) : Prop :=
  NoDup (_tk_queue s).*1 ∧ ∀ fid, fid ∈ (_tk_queue s).*1 → futures s !! fid = Some Pending.

(** What the threads can do to the dispatcher, one step at a time: a caller
    submits a function, the Tk thread makes a pass, [destroy] sets the stop
    event. *)
Inductive action :=
  | Submit (func : closure)
  | Turn (update : World → option World)
  | SetStop.

Definition perform (a : action) (s : tk) : tk :=
  match a with
  | Submit func => (submit func s).2
  | Turn update => worker_turn update s
  | SetStop => set_stop_event true s
  end.

Definition schedule (acts : list action) (s : tk) : tk :=
  fold_left (λ s a, perform a s) acts s.

End Dispatcher.

Arguments action : clear implicits.
Arguments future : clear implicits.
Arguments tk : clear implicits.
Arguments closure : clear implicits.

End Dispatcher.

(** ** __init__.py: the persisted document *)

Module ConfigStore.

Definition CONFIG_FILENAME : string := "overlays.json".

(** [self._config_path.with_suffix(".tmp")]. *)
Definition TMP_FILENAME : string := "overlays.tmp".

(** An entry of the configuration directory: a regular file with its bytes,
    which the process may or may not be allowed to open, or a directory. *)
Inductive node :=
  | File (accessible : bool) (content : string)
  | Dir.

(** The configuration directory, by file name. *)
Abbreviation directory := (gmap string node).

(** The clause [except (json.JSONDecodeError, OSError)]. *)
Definition caught (e : py_exn) : bool :=
  String.eqb (exn_class e) "JSONDecodeError" || String.eqb (exn_class e) "OSError".

(** [not d] for a dictionary. *)
Definition is_empty (d : gmap string json) : bool :=
  match map_to_list d with
  | [] => true
  | _ => false
  end.

(** A document with both namespaces, each a dictionary, and nothing else. *)
Definition two_namespaces (doc : gmap string json) : Prop :=
  ∃ rects points, doc = {[ "rects" := JObj rects; "points" := JObj points ]}.

(** A path at which [open("w")] succeeds: no entry yet, or a file the
    process may open. *)
Definition writable (n : option node) : Prop :=
  match n with
  | None | Some (File true _) => True
  | _ => False
  end.

(** The steps of the file system that a write goes through. *)
Inductive fs_op :=
  | OpenW (p : string)
  | Write (p : string) (chunk : string)
  | Replace (src dst : string).

(** One step; [OSError] when the operating system refuses it. *)
Definition exec (op : fs_op) (d : directory) : py_result directory :=
  match op with
  | OpenW p =>
      match d !! p with
      | None | Some (File true _) => Returns (<[p := File true ""]> d)
      | Some (File false _) | Some Dir => Raises OSError
      end
  | Write p chunk =>
      match d !! p with
      | Some (File true c) => Returns (<[p := File true (c +:+ chunk)]> d)
      | _ => Raises OSError
      end
  | Replace src dst =>
      match d !! src, d !! dst with
      | Some (File a c), (None | Some (File _ _)) => Returns (<[dst := File a c]> (delete src d))
      | _, _ => Raises OSError
      end
  end.

(** A sequence of steps, up to the first that raises. *)
Fixpoint exec_all (ops : list fs_op) (d : directory) : py_result unit * directory :=
  match ops with
  | [] => (Returns (), d)
  | op :: ops =>
      match exec op d with
      | Returns d => exec_all ops d
      | Raises e => (Raises e, d)
      end
  end.

Section Codec.

(** The JSON codec is the standard library's.  [json_load] is what
    [json.load] does with the bytes of a file opened as UTF-8 text: a value,
    [JSONDecodeError] for text that is not JSON, or [UnicodeDecodeError] for
    bytes that are not UTF-8.  [json_dump] is what
    [json.dump(data, fh, ensure_ascii=False, indent=2)] does on a file opened
    as UTF-8 text: the strings it writes, in order, and the exception that
    ends it before the document is complete, if there is one
    ([UnicodeEncodeError] when a string of the document holds a lone
    surrogate, which the write of that chunk cannot encode, or the [OSError]
    of a write that the operating system refuses; the chunks before it have
    been written). *)
Variable json_load : string → py_result json.
Variable json_dump : json → list string * option py_exn.

(** The text that [json.dump] writes: the whole document when the dump
    completes, a prefix of it otherwise. *)
Definition written (data : json) : string := foldr String.append "" (json_dump data).1.

(** [json.dumps]: the whole text, or the exception of the dump. *)
Definition dumps (data : json) : py_result string :=
  match (json_dump data).2 with
  | None => Returns (written data)
  | Some e => Raises e
  end.

(** [with path.open("r", encoding="utf-8") as fh: json.load(fh)]. *)
Definition read_json (p : string) (d : directory) : py_result json :=
  match d !! p with
  | Some (File true c) => json_load c
  | _ => Raises OSError
  end.

(** [path.exists()]. *)
Definition exists_ (p : string) (d : directory) : bool := bool_decide (is_Some (d !! p)).

(** The [with] block of [_write_config_file], step by step: the temporary
    file is opened and receives what the dump writes. *)
Definition dump_ops (data : json) : list fs_op :=
  OpenW TMP_FILENAME :: (Write TMP_FILENAME <$> (json_dump data).1).

(** [_write_config_file]: the [with] block, then, unless an exception has
    left the block, the rename. *)
Definition _write_config_file (data : json) (d : directory) : py_result unit * directory :=
  match exec_all (dump_ops data) d with
  | (Raises e, d) => (Raises e, d)
  | (Returns _, d) =>
      match (json_dump data).2 with
      | Some e => (Raises e, d)
      | None => exec_all [Replace TMP_FILENAME CONFIG_FILENAME] d
      end
  end.

(** The steps of the file system that a write goes through when none of
    them is refused: the rename comes last, and only after a complete
    dump. *)
Definition write_ops (data : json) : list fs_op :=
  dump_ops data
    ++ match (json_dump data).2 with
       | None => [Replace TMP_FILENAME CONFIG_FILENAME]
       | Some _ => []
       end.

(** [_write_config_file] interrupted after [k] of its steps. *)
Definition interrupted (k : nat) (data : json) (d : directory) : directory :=
  (exec_all (take k (write_ops data)) d).2.

(** [_load_legacy_file]. *)
Definition _load_legacy_file (filename : string) (d : directory)
  : py_result (gmap string json) :=
  if negb (exists_ filename d) then Returns ∅
  else
    match read_json filename d with
    | Returns data => Returns (default ∅ (as_dict data))
    | Raises e => if caught e then Returns ∅ else Raises e
    end.

(** [_migrate_legacy_configs]. *)
Definition _migrate_legacy_configs (d : directory)
  : py_result (option (gmap string json)) * directory :=
  match _load_legacy_file "rects.json" d with
  | Raises e => (Raises e, d)
  | Returns rects =>
      match _load_legacy_file "points.json" d with
      | Raises e => (Raises e, d)
      | Returns points =>
          if is_empty rects && is_empty points then (Returns None, d)
          else
            let data : gmap string json :=
              {[ "rects" := JObj rects; "points" := JObj points ]} in
            match _write_config_file (JObj data) d with
            | (Returns _, d) => (Returns (Some data), d)
            | (Raises e, d) => (Raises e, d)
            end
      end
  end.

(** [data.get(key, {}) if isinstance(data.get(key), dict) else {}]. *)
Definition namespace (data : gmap string json) (key : string) : json :=
  match data !! key with
  | Some (JObj ns) => JObj ns
  | _ => JObj ∅
  end.

(** [_load_all_configs]. *)
Definition _load_all_configs (d : directory) : py_result (gmap string json) * directory :=
  if exists_ CONFIG_FILENAME d then
    let data :=
      match read_json CONFIG_FILENAME d with
      | Returns data => Returns data
      | Raises e => if caught e then Returns (JObj ∅) else Raises e
      end in
    match data with
    | Raises e => (Raises e, d)
    | Returns data =>
        let data := default ∅ (as_dict data) in
        (Returns {[ "rects" := namespace data "rects"; "points" := namespace data "points" ]}, d)
    end
  else
    match _migrate_legacy_configs d with
    | (Raises e, d) => (Raises e, d)
    | (Returns (Some legacy), d) => (Returns legacy, d)
    | (Returns None, d) => (Returns {[ "rects" := JObj ∅; "points" := JObj ∅ ]}, d)
    end.

(** [_save_all_configs]: both namespaces are put back into [_config], which
    is then written. *)
Definition _save_all_configs (_config : gmap string json)
    (_rect_configs _point_configs : gmap string json) (d : directory)
  : py_result unit * (gmap string json * directory) :=
  let _config := <["rects" := JObj _rect_configs]> _config in
  let _config := <["points" := JObj _point_configs]> _config in
  let '(r, d) := _write_config_file (JObj _config) d in
  (r, (_config, d)).

End Codec.

End ConfigStore.

(** ** Concrete markers and event sequences

    The states used to exercise the statements below.  All of them are built
    with the functions of the model from a screen of 1920 by 1080. *)

Module Examples.

Import Overlay.

Definition screen_hd : screen := Screen 1920 1080.

(** Scenario A: a rectangle at (10, 20) of 200 by 100, pressed on its canvas
    and moved by (40, 40) before the button is released. *)
Definition price_box : DraggableOverlay :=
  create_overlay 10 20 200 100 "price-box"
    (Some (RectCallback "price-box" "price-box")) default_style.

Definition drag_release : list pointer :=
  [ Press OnCanvas (Event 5 5 15 25);
    Motion OnCanvas (Event 5 5 35 45);
    Motion OnCanvas (Event 5 5 55 65);
    Release OnCanvas (Event 5 5 55 65) ].

(** A rectangle wider than the screen, pressed and moved by one pixel. *)
Definition wide_box : DraggableOverlay :=
  create_overlay 0 0 2000 100 "wide" (Some (RectCallback "wide" "wide")) default_style.

Definition press_canvas : pointer := Press OnCanvas (Event 5 5 5 5).
Definition move_canvas : pointer := Motion OnCanvas (Event 6 6 6 6).

(** A rectangle registered 20 pixels from the right edge of the screen,
    pressed on its resize handle and moved by one pixel. *)
Definition edge_box : DraggableOverlay :=
  create_overlay 1900 100 100 100 "edge" (Some (RectCallback "edge" "edge")) default_style.

Definition press_handle : pointer := Press OnHandle (Event 95 95 1995 195).
Definition move_handle : pointer := Motion OnHandle (Event 96 96 1996 196).

(** Scenario B: the persisted document holds a rectangle below the minimum
    size and no marker is live. *)
Definition existing_record : json :=
  JObj {[ "x" := JInt 5; "y" := JInt 5; "width" := JInt 30; "height" := JInt 30;
          "label" := JStr "old" ]}.

Definition persisted_small : Manager.manager :=
  Manager.Build ∅ ∅ {[ "existing" := existing_record ]} ∅.

(** A persisted point, and a rectangle record without a height. *)
Definition persisted_partial : Manager.manager :=
  Manager.Build ∅ ∅
    {[ "partial" := JObj {[ "x" := JInt 7; "y" := JInt 8; "width" := JInt 90;
                            "label" := JStr "p" ]} ]}
    {[ "pt" := JObj {[ "x" := JInt 70; "y" := JInt 80; "label" := JStr "point" ]} ]}.

(** A fresh configuration directory: nothing persisted, nothing live. *)
Definition fresh_manager : Manager.manager := Manager.Build ∅ ∅ ∅ ∅.

(** A persisted rectangle and a persisted point whose x is [null] in the
    file; no marker is live. *)
Definition persisted_null : Manager.manager :=
  Manager.Build ∅ ∅
    {[ "broken" := JObj {[ "x" := JNull; "y" := JInt 8; "label" := JStr "b" ]} ]}
    {[ "broken" := JObj {[ "x" := JNull; "y" := JInt 8 ]} ]}.

(** Python's [int] on strings is not needed for these records. *)
Definition no_int_of_str : string → option Z := λ _, None.

(** A dispatcher over a world without state whose functions return
    integers: the Tk thread is alive and nothing is queued. *)
Definition idle_tk : Dispatcher.tk unit Z := Dispatcher.Build [] ∅ false Dispatcher.Alive tt.

Definition returns_seven : Dispatcher.closure unit Z := λ w, (Returns 7, w).
Definition returns_zero : Dispatcher.closure unit Z := λ w, (Returns 0, w).
Definition raises_KeyError : Dispatcher.closure unit Z :=
  λ w, (Raises (PyExn "KeyError" "missing" true), w).

(** [root.update()] with no pointer event pending. *)
Definition no_events : unit → option unit := λ w, Some w.

(** Scenario D: a submission is queued, not yet executed, when [destroy] is
    called.  [destroy] submits its own function and blocks; the Tk thread
    makes a pass; [destroy] resumes and sets the stop event; the Tk thread
    makes its last pass. *)
Definition pending_submit : nat * Dispatcher.tk unit Z :=
  Dispatcher.submit returns_seven idle_tk.

Definition destroy_called : nat * Dispatcher.tk unit Z :=
  Dispatcher.destroy_submit returns_zero pending_submit.2.

Definition after_destroy : Dispatcher.tk unit Z :=
  Dispatcher.worker_turn no_events
    (Dispatcher.destroy_resume destroy_called.1
       (Dispatcher.worker_turn no_events destroy_called.2)).

(** A failing function queued ahead of a good one. *)
Definition failing_then_good : Dispatcher.tk unit Z :=
  (Dispatcher.submit returns_seven (Dispatcher.submit raises_KeyError idle_tk).2).2.

(** Two submissions left in the queue when the stop event is set. *)
Definition stopping : Dispatcher.tk unit Z :=
  Dispatcher.set_stop_event true failing_then_good.

(** A function that raises [SystemExit], which is not an [Exception], queued
    ahead of a good one. *)
Definition raises_SystemExit : Dispatcher.closure unit Z :=
  λ w, (Raises (PyExn "SystemExit" "1" false), w).

Definition exiting_then_good : Dispatcher.tk unit Z :=
  (Dispatcher.submit returns_seven (Dispatcher.submit raises_SystemExit idle_tk).2).2.

(** The codec is a parameter of [ConfigStore].  For the examples it is a
    table on the file contents that occur in them: [legacy_text] stands for
    the text of a legacy file that holds one rectangle, [migrated_text] for
    the text [json.dump] writes for the migrated document, [binary_text] for
    bytes that are not UTF-8. *)
Definition legacy_rects : gmap string json :=
  {[ "box" := JObj {[ "x" := JInt 1; "y" := JInt 2; "width" := JInt 60; "height" := JInt 70;
                      "label" := JStr "box" ]} ]}.

Definition migrated : gmap string json :=
  {[ "rects" := JObj legacy_rects; "points" := JObj ∅ ]}.

Definition legacy_text : string := "<rects.json: one rectangle>".
Definition migrated_text : string := "<overlays.json: migrated>".
Definition binary_text : string := "<bytes that are not UTF-8>".

(** A legacy file that is ASCII on disk and whose one label is the escape
    sequence of a lone surrogate: [json.load] accepts it, and the text
    encoder of a file cannot write the label back. *)
Definition surrogate_text : string := "<rects.json: a label that is a lone surrogate>".

Definition surrogate_rects : gmap string json :=
  {[ "odd" := JObj {[ "x" := JInt 1; "y" := JInt 2; "label" := JStr "<lone surrogate>" ]} ]}.

Definition sample_load (c : string) : py_result json :=
  if String.eqb c "{}" then Returns (JObj ∅)
  else if String.eqb c legacy_text then Returns (JObj legacy_rects)
  else if String.eqb c migrated_text then Returns (JObj migrated)
  else if String.eqb c binary_text then Raises UnicodeDecodeError
  else if String.eqb c surrogate_text then Returns (JObj surrogate_rects)
  else Raises JSONDecodeError.

(** The dump stops at the label of the rectangle "odd" when the document has
    one, after the text up to that label has been written. *)
Definition sample_dump (v : json) : list string * option py_exn :=
  match v with
  | JObj doc =>
      match doc !! "rects" with
      | Some (JObj rects) =>
          if bool_decide (is_Some (rects !! "odd"))
          then (["<overlays.json: "; "up to the label"], Some UnicodeEncodeError)
          else (["<overlays.json: "; "migrated>"], None)
      | _ => (["<overlays.json: "; "migrated>"], None)
      end
  | _ => (["<overlays.json: "; "migrated>"], None)
  end.

(** A directory whose only file is a legacy file holding an empty object. *)
Definition empty_legacy : gmap string ConfigStore.node :=
  {[ "rects.json" := ConfigStore.File true "{}" ]}.

(** A directory whose only file is a legacy file holding one rectangle. *)
Definition one_legacy : gmap string ConfigStore.node :=
  {[ "rects.json" := ConfigStore.File true legacy_text ]}.

(** A directory whose unified file holds bytes that are not UTF-8. *)
Definition undecodable : gmap string ConfigStore.node :=
  {[ ConfigStore.CONFIG_FILENAME := ConfigStore.File true binary_text ]}.

(** A directory whose only file is a legacy file with the surrogate label. *)
Definition surrogate_legacy : gmap string ConfigStore.node :=
  {[ "rects.json" := ConfigStore.File true surrogate_text ]}.

(** A rectangle that is neither draggable nor resizable. *)
Definition pinned_box : DraggableOverlay :=
  create_overlay 10 20 200 100 "pinned" (Some (RectCallback "pinned" "pinned"))
    (Style false false 10).

(** A resize of [price_box]: the handle is pressed, moved by (30, -80) and
    released. *)
Definition resize_release : list pointer :=
  [ Press OnHandle (Event 195 95 205 115);
    Motion OnHandle (Event 225 15 235 35);
    Release OnHandle (Event 225 15 235 35) ].

(** A point marker at (300, 250) with the default style; the toolkit reports
    a label frame of 60 by 20. *)
Definition label_size : Z * Z := (60, 20).

Definition price_point : Point.DraggablePoint :=
  Point.create_point label_size 300 250 "price"
    (Some (Point.PointCallback "price" "price")) Point.default_style.

Definition point_press : event := Event 50 50 300 250.
Definition point_move : event := Event 50 50 3000 (-40).

End Examples.

(** * Properties *)

(** ** The interaction state machine of a rectangle marker *)

Module OverlayFacts.

Import Overlay.

(** The handlers branch on the flags and on the presence of the widgets
    only: once these are fixed, a handler computes to a record. *)
Ltac fix_flags o :=
  destruct o as [ox oy ow oh ol [ocb|] [] [] ohs [] [] osx osy oox ooy osw osh
                 [ot|] [olw|] [orh|] ov oc].

Ltac compute_handler :=
  repeat first
    [ progress cbn -[Z.add Z.sub Z.max Z.min Z.leb Z.ltb] in *
    | progress unfold deliver, _on_mouse_press, _on_resize_press, _on_resize_drag,
        _on_mouse_drag_global, _on_resize_release, _on_mouse_release_global,
        _is_in_resize_handle, _notify_callback, _create_resize_handle, _create_label,
        _update_geometry, in_progress, get_position in *
    | case_match ];
  try done.

Lemma deliver_callback scr p o : callback (deliver scr p o) = callback o.
Proof.
  fix_flags o; destruct p as [[] ev|[] ev|[] ev]; compute_handler.
Qed.

Lemma deliver_calls scr p o :
  is_Some (callback o) →
  calls (deliver scr p o)
  = calls o ++ (if is_release p && in_progress o then [get_position o] else []).
Proof.
  intros [cb Hcb].
  fix_flags o; destruct p as [[] ev|[] ev|[] ev]; compute_handler;
    by rewrite ?app_nil_r.
Qed.

Lemma release_ends_interaction scr t ev o :
  in_progress (deliver scr (Release t ev) o) = false
  ∧ get_position (deliver scr (Release t ev) o) = get_position o.
Proof.
  fix_flags o; destruct t; compute_handler.
Qed.

Lemma run_cons scr p ps o : run scr (p :: ps) o = run scr ps (deliver scr p o).
Proof. done. Qed.

Lemma run_calls scr ps o :
  is_Some (callback o) →
  calls (run scr ps o) = calls o ++ expected_calls scr ps o.
Proof.
  revert o. induction ps as [|p ps IH]; intros o Hcb.
  - by rewrite app_nil_r.
  - rewrite run_cons, IH by (by rewrite deliver_callback).
    rewrite deliver_calls by done. simpl. by rewrite app_assoc.
Qed.

(** The position after a pointer move in a drag. *)
Lemma drag_position scr ev o :
  dragging o = true → draggable o = true → resizing o = false →
  let o' := _on_mouse_drag_global scr ev o in
  x o' = Z.max 0 (Z.min (offset_x o + (x_root ev - start_x o)) (screen_width scr - width o))
  ∧ y o' = Z.max 0 (Z.min (offset_y o + (y_root ev - start_y o)) (screen_height scr - height o))
  ∧ width o' = width o ∧ height o' = height o.
Proof.
  intros Hd Hg Hr. fix_flags o; simpl in Hd, Hg, Hr; try done; compute_handler.
Qed.

(** The size after a pointer move in a resize: the floor of 50 is applied
    first and the cap that keeps the marker on the screen after it. *)
Lemma resize_size scr ev o :
  resizing o = true → resizable o = true →
  let o' := _on_resize_drag scr ev o in
  width o'
  = Z.min (Z.max 50 (start_width o + (x_root ev - start_x o))) (screen_width scr - offset_x o)
  ∧ height o'
    = Z.min (Z.max 50 (start_height o + (y_root ev - start_y o)))
        (screen_height scr - offset_y o)
  ∧ x o' = x o ∧ y o' = y o.
Proof.
  intros Hr Hz. fix_flags o; simpl in Hr, Hz; try done; compute_handler.
Qed.

Lemma resize_drag_global scr ev o :
  resizing o = true → _on_mouse_drag_global scr ev o = _on_resize_drag scr ev o.
Proof. intros Hr. unfold _on_mouse_drag_global. by rewrite Hr. Qed.

Lemma resize_drag_twice scr ev o :
  _on_resize_drag scr ev (_on_resize_drag scr ev o) = _on_resize_drag scr ev o.
Proof.
  fix_flags o; compute_handler.
Qed.

(** C8.  For every sequence of pointer events on a rectangle marker with an
    update callback: a pointer move never calls the callback, whatever the
    mode; a release that ends a drag or a resize calls it exactly once, with
    the geometry the marker has then, and leaves the marker idle; and over a
    whole sequence the calls made are exactly one per such release. *)
Theorem callback_only_on_release scr o :
  is_Some (callback o) →
  (∀ t ev, calls (deliver scr (Motion t ev) o) = calls o)
  ∧ (∀ t ev, in_progress o = true →
       calls (deliver scr (Release t ev) o) = calls o ++ [get_position o]
       ∧ get_position (deliver scr (Release t ev) o) = get_position o
       ∧ in_progress (deliver scr (Release t ev) o) = false)
  ∧ (∀ ps, calls (run scr ps o) = calls o ++ expected_calls scr ps o).
Proof.
  intros Hcb. split_and!.
  - intros t ev. rewrite deliver_calls by done. simpl. by rewrite app_nil_r.
  - intros t ev Hp. rewrite deliver_calls by done. simpl. rewrite Hp.
    destruct (release_ends_interaction scr t ev o) as [Hidle Hgeom]. done.
  - intros ps. by apply run_calls.
Qed.

Lemma callback_only_on_release_witness :
  is_Some (callback Examples.price_box)
  ∧ calls (run Examples.screen_hd Examples.drag_release Examples.price_box)
    = [(50, 60, 200, 100)].
Proof.
  assert (Hcb : is_Some (callback Examples.price_box)) by (vm_compute; eauto).
  split; [exact Hcb|].
  rewrite (proj2 (proj2 (callback_only_on_release Examples.screen_hd _ Hcb))).
  vm_compute. reflexivity.
Defined.

End OverlayFacts.

(** ** The interaction state machine of a point marker *)

Module PointFacts.

Import Point.
Import Overlay(screen, screen_width, screen_height, event, x_root, y_root, Toplevel).

Ltac fix_flags p :=
  destruct p as [px py pl [] [pcb|] pps plx ply [] psx psy pox poy pws [pt|] [plw|] pv pc].

Ltac compute_handler :=
  repeat first
    [ progress cbn -[Z.add Z.sub Z.max Z.min Z.leb Z.ltb Z.div Z.mul] in *
    | progress unfold _on_mouse_press, _on_mouse_drag, _on_mouse_release,
        _notify_callback, _create_label, _update_geometry, place_window,
        get_position in *
    | case_match ];
  try done.

(** The point after a pointer move in a drag: the window is kept on the
    screen first, the point itself after that; the window size is not
    touched. *)
Lemma point_drag_position scr req ev p :
  dragging p = true → draggable p = true →
  let p' := _on_mouse_drag scr req ev p in
  let ws := window_size p in
  x p' = Z.max (point_size p)
           (Z.min (Z.max 0 (Z.min (offset_x p + (x_root ev - start_x p))
                              (screen_width scr - ws)) + Z.div ws 2)
              (screen_width scr - point_size p))
  ∧ y p' = Z.max (point_size p)
             (Z.min (Z.max 0 (Z.min (offset_y p + (y_root ev - start_y p))
                                (screen_height scr - ws)) + Z.div ws 2)
                (screen_height scr - point_size p))
  ∧ window_size p' = ws ∧ point_size p' = point_size p.
Proof.
  intros Hd Hg. fix_flags p; simpl in Hd, Hg; try done; compute_handler.
Qed.

Lemma drag_calls scr req ev p : calls (_on_mouse_drag scr req ev p) = calls p.
Proof. fix_flags p; compute_handler. Qed.

Lemma release_calls p :
  dragging p = true → is_Some (callback p) →
  calls (_on_mouse_release p) = calls p ++ [get_position p]
  ∧ dragging (_on_mouse_release p) = false.
Proof.
  intros Hd [cb Hcb]. fix_flags p; simpl in Hd, Hcb; try done; compute_handler.
Qed.

(** While the window fits on the screen and is at least four point sizes
    wide, as [__init__] makes it, the second clamp changes nothing and the
    window stays on the screen. *)
Lemma drag_window_on_screen scr req ev p :
  dragging p = true → draggable p = true →
  0 ≤ point_size p → 4 * point_size p ≤ window_size p →
  window_size p ≤ screen_width scr → window_size p ≤ screen_height scr →
  let p' := _on_mouse_drag scr req ev p in
  let ws := window_size p in
  0 ≤ x p' - Z.div ws 2 ≤ screen_width scr - ws
  ∧ 0 ≤ y p' - Z.div ws 2 ≤ screen_height scr - ws.
Proof.
  intros Hd Hg Hps Hws Hw Hh.
  destruct (point_drag_position scr req ev p Hd Hg) as (Hx & Hy & _ & _).
  simpl. rewrite Hx, Hy. clear Hx Hy.
  pose proof (Z.div_mod (window_size p) 2 ltac:(lia)).
  pose proof (Z.mod_pos_bound (window_size p) 2 ltac:(lia)).
  lia.
Qed.

End PointFacts.

(** ** Clamping against the screen (property P4) *)

Module Clamping.

Import Overlay.

(** C2, refuted as stated.  A rectangle 2000 wide on a screen 1920 wide is
    put at x = 0 by a drag, which is not within [0, 1920 - 2000]; and a
    rectangle whose left edge is 20 pixels from the right edge of the screen
    gets width 20 from a resize, below the floor of 50. *)
Lemma clamping_counterexample :
  let dragged := run Examples.screen_hd [Examples.press_canvas; Examples.move_canvas]
                   Examples.wide_box in
  let resized := run Examples.screen_hd [Examples.press_handle; Examples.move_handle]
                   Examples.edge_box in
  ¬ (0 ≤ x dragged ≤ screen_width Examples.screen_hd - width dragged)
  ∧ ¬ (50 ≤ width resized).
Proof.
  vm_compute. split; intros H; [destruct H as [_ H]|]; apply H; reflexivity.
Qed.

(** C2, amended.  A pointer move in a drag leaves a rectangle at x, y >= 0,
    and at x <= screenWidth - width (y <= screenHeight - height) when the
    rectangle is no wider (taller) than the screen.  It leaves a point at
    x, y >= pointSize, and at x <= screenWidth - pointSize (y likewise) when
    twice the point size fits in the screen.  A pointer move in a resize
    leaves a width (height) that never exceeds the distance from the left
    (top) edge recorded at the press to the right (bottom) edge of the
    screen; it is at least 50 when that distance is at least 50, and it is
    that distance when the distance is below 50: the cap to the screen is
    applied after the floor and wins over it. *)
Theorem clamping scr ev req (o : DraggableOverlay) (p : Point.DraggablePoint) :
  (dragging o = true → draggable o = true → resizing o = false →
   let o' := _on_mouse_drag_global scr ev o in
   0 ≤ x o' ∧ 0 ≤ y o'
   ∧ (width o ≤ screen_width scr → x o' ≤ screen_width scr - width o')
   ∧ (height o ≤ screen_height scr → y o' ≤ screen_height scr - height o'))
  ∧ (Point.dragging p = true → Point.draggable p = true →
     let p' := Point._on_mouse_drag scr req ev p in
     Point.point_size p ≤ Point.x p' ∧ Point.point_size p ≤ Point.y p'
     ∧ (2 * Point.point_size p ≤ screen_width scr →
        Point.x p' ≤ screen_width scr - Point.point_size p')
     ∧ (2 * Point.point_size p ≤ screen_height scr →
        Point.y p' ≤ screen_height scr - Point.point_size p'))
  ∧ (resizing o = true → resizable o = true →
     let o' := _on_mouse_drag_global scr ev o in
     width o' ≤ screen_width scr - offset_x o
     ∧ height o' ≤ screen_height scr - offset_y o
     ∧ (50 ≤ screen_width scr - offset_x o → 50 ≤ width o')
     ∧ (50 ≤ screen_height scr - offset_y o → 50 ≤ height o')
     ∧ (screen_width scr - offset_x o < 50 → width o' = screen_width scr - offset_x o)
     ∧ (screen_height scr - offset_y o < 50 →
        height o' = screen_height scr - offset_y o)).
Proof.
  split_and!.
  - intros Hd Hg Hr.
    destruct (OverlayFacts.drag_position scr ev o Hd Hg Hr) as (Hx & Hy & Hw & Hh).
    simpl. rewrite Hx, Hy, Hw, Hh. lia.
  - intros Hd Hg.
    destruct (PointFacts.point_drag_position scr req ev p Hd Hg) as (Hx & Hy & _ & Hps).
    simpl. rewrite Hx, Hy, Hps. lia.
  - intros Hr Hz. simpl. rewrite OverlayFacts.resize_drag_global by done.
    destruct (OverlayFacts.resize_size scr ev o Hr Hz) as (Hw & Hh & _ & _).
    rewrite Hw, Hh. lia.
Qed.

Lemma clamping_witness :
  let scr := Examples.screen_hd in
  let dragged := run scr [Examples.press_canvas; Examples.move_canvas] Examples.price_box in
  let resized :=
    run scr [Press OnHandle (Event 195 95 205 115); Motion OnHandle (Event 0 0 100 50)]
      Examples.price_box in
  let moved :=
    Point._on_mouse_drag scr Examples.label_size Examples.point_move
      (Point._on_mouse_press Examples.point_press Examples.price_point) in
  (0 ≤ x dragged ≤ 1920 - width dragged ∧ 0 ≤ y dragged ≤ 1080 - height dragged)
  ∧ (8 ≤ Point.x moved ≤ 1920 - 8 ∧ 8 ≤ Point.y moved ≤ 1080 - 8)
  ∧ (50 ≤ width resized ≤ 1920 - 10 ∧ 50 ≤ height resized ≤ 1080 - 20).
Proof.
  intros scr dragged resized moved.
  pose (o1 := deliver scr Examples.press_canvas Examples.price_box).
  pose (o2 := deliver scr (Press OnHandle (Event 195 95 205 115)) Examples.price_box).
  pose (p1 := Point._on_mouse_press Examples.point_press Examples.price_point).
  destruct (clamping scr (Event 6 6 6 6) Examples.label_size o1 p1) as (Hdrag & _ & _).
  destruct (clamping scr Examples.point_move Examples.label_size o1 p1) as (_ & Hpoint & _).
  destruct (clamping scr (Event 0 0 100 50) Examples.label_size o2 p1) as (_ & _ & Hresize).
  specialize (Hdrag eq_refl eq_refl eq_refl).
  specialize (Hpoint eq_refl eq_refl).
  specialize (Hresize eq_refl eq_refl).
  simpl in Hdrag, Hpoint, Hresize.
  destruct Hdrag as (Hx0 & Hy0 & Hx1 & Hy1).
  destruct Hpoint as (Hpx0 & Hpy0 & Hpx1 & Hpy1).
  destruct Hresize as (Hwcap & Hhcap & Hw & Hh & _ & _).
  specialize (Hx1 ltac:(vm_compute; discriminate)).
  specialize (Hy1 ltac:(vm_compute; discriminate)).
  specialize (Hpx1 ltac:(vm_compute; discriminate)).
  specialize (Hpy1 ltac:(vm_compute; discriminate)).
  specialize (Hw ltac:(vm_compute; discriminate)).
  specialize (Hh ltac:(vm_compute; discriminate)).
  repeat split; first [exact Hx0|exact Hy0|exact Hx1|exact Hy1|exact Hpx0|exact Hpy0
                      |exact Hpx1|exact Hpy1|exact Hw|exact Hh|exact Hwcap|exact Hhcap].
Defined.

End Clamping.

(** ** Registration and the getters *)

Module ManagerFacts.

Import Manager.

(** Computation that leaves the arithmetic and the truth value of the label
    alone. *)
Ltac step := cbn -[Z.max Z.sub Z.add Overlay.truthy] in *.

(** *** The constructor path of [registerRect] *)

Lemma create_overlay_attributes x y w h l cb st :
  let o := Overlay.create_overlay x y w h l cb st in
  Overlay.get_position o = (x, y, w, h)
  ∧ Overlay.label o = l
  ∧ Overlay.visible o = true
  ∧ Overlay.overlay o = Some (Overlay.Toplevel w h x y)
  ∧ Overlay.calls o = [].
Proof.
  destruct st as [[] [] hs]; unfold Overlay.create_overlay, Overlay.show; simpl;
    destruct (Overlay.truthy l); done.
Qed.


(** C1, at the input of the scenario: the record of width 30 and height 30
    yields a visible marker of width 30 and height 30 labelled "old".  The
    label is kept; the size is not raised to the floor of 50, because
    [__init__] stores what it is given and only [update_size] takes the
    maximum with 50. *)
Theorem registerRect_persisted_small_not_clamped :
  ∃ m o,
    registerRect "existing" "" None None None None Overlay.default_style
      Examples.persisted_small = Returns m
    ∧ _rects m !! "existing" = Some o
    ∧ Overlay.get_position o = (5, 5, 30, 30)
    ∧ Overlay.label o = "old"
    ∧ Overlay.visible o = true
    ∧ Overlay.overlay o = Some (Overlay.Toplevel 30 30 5 5).
Proof.
  eexists _, _. split; [by vm_compute|]. split; [by vm_compute|].
  by vm_compute.
Qed.


(** The path for a live marker does raise the size to the floor. *)
Lemma update_size_size w h notify o :
  let o' := Overlay.update_size w h notify o in
  Overlay.width o' = Z.max 50 w ∧ Overlay.height o' = Z.max 50 h
  ∧ Overlay.x o' = Overlay.x o ∧ Overlay.y o' = Overlay.y o.
Proof.
  destruct o as [ox oy ow oh ol [ocb|] dg [] ohs d r osx osy oox ooy osw osh
                 [ot|] [olw|] orh [] oc];
    destruct notify; done.
Qed.

Lemma update_size_floor w h notify o :
  let o' := Overlay.update_size w h notify o in
  50 ≤ Overlay.width o' ∧ 50 ≤ Overlay.height o'.
Proof.
  destruct (update_size_size w h notify o) as (Hw & Hh & _). simpl. lia.
Qed.

(** *** Registering twice *)

(** C9, at a size below the floor: registering "r1" at (10, 10) with width
    30 and height 30 once leaves a marker of 30 by 30; registering it again
    with the same arguments leaves one of 50 by 50.  The second call makes
    no call to the callback and the marker is visible, but the geometry
    after two calls is not the geometry after one. *)
Theorem registerRect_twice_small_differs :
  ∃ m1 m2 o1 o2,
    registerRect "r1" "" (Some 10) (Some 10) (Some 30) (Some 30) Overlay.default_style
      Examples.fresh_manager = Returns m1
    ∧ registerRect "r1" "" (Some 10) (Some 10) (Some 30) (Some 30) Overlay.default_style
        m1 = Returns m2
    ∧ _rects m1 !! "r1" = Some o1
    ∧ _rects m2 !! "r1" = Some o2
    ∧ Overlay.get_position o1 = (10, 10, 30, 30)
    ∧ Overlay.get_position o2 = (10, 10, 50, 50)
    ∧ Overlay.calls o2 = []
    ∧ Overlay.visible o2 = true.
Proof.
  eexists _, _, _, _. split; [by vm_compute|]. split; [by vm_compute|].
  split; [by vm_compute|]. split; [by vm_compute|]. by vm_compute.
Qed.

(** Applying to a marker just created the updates of the live path, with the
    arguments it was created with, changes nothing when the size is at least
    the floor. *)
Lemma reregister_same x y w h l cb st :
  50 ≤ w → 50 ≤ h →
  let o := Overlay.create_overlay x y w h l cb st in
  Overlay.show
    (Overlay.update_label l
       (Overlay.update_size w h false (Overlay.update_position x y false o))) = o.
Proof.
  intros Hw Hh. destruct st as [dg rz hs].
  unfold Overlay.create_overlay, Overlay.__init__, Overlay.show. step.
  destruct (Overlay.truthy l) eqn:Hl, rz; step;
    unfold Overlay.update_position, Overlay.update_size; step;
    rewrite !Z.max_r by lia;
    unfold Overlay.update_label, Overlay.show; step; rewrite ?Hl; done.
Qed.

(** P5 for sizes at or above the floor: with an explicit geometry, a second
    identical call on the marker the first one created leaves the manager as
    the first call left it; in particular the marker's geometry, its calls
    to the callback and its visibility are those after one call. *)
Lemma registerRect_idempotent rect_id label x y w h st m m1 :
  _rects m !! rect_id = None → 50 ≤ w → 50 ≤ h →
  registerRect rect_id label (Some x) (Some y) (Some w) (Some h) st m = Returns m1 →
  registerRect rect_id label (Some x) (Some y) (Some w) (Some h) st m1 = Returns m1.
Proof.
  intros Hlive Hw Hh. unfold registerRect. simpl.
  destruct (merged_label label _ rect_id) as [l|e] eqn:Hl; simpl; [|done].
  rewrite Hlive. intros [= <-]. simpl. rewrite Hl. simpl.
  rewrite lookup_insert_eq. rewrite reregister_same by done.
  unfold set_rects. simpl. by rewrite insert_insert_eq.
Qed.

Lemma registerRect_twice_P5 :
  ∃ m1,
    registerRect "r1" "" (Some 10) (Some 10) (Some 100) (Some 50) Overlay.default_style
      Examples.fresh_manager = Returns m1
    ∧ registerRect "r1" "" (Some 10) (Some 10) (Some 100) (Some 50) Overlay.default_style
        m1 = Returns m1
    ∧ Overlay.get_position <$> _rects m1 !! "r1" = Some (10, 10, 100, 50).
Proof.
  eexists. split; [by vm_compute|].
  split; [|by vm_compute].
  apply (registerRect_idempotent "r1" "" 10 10 100 50 _ Examples.fresh_manager);
    [done|lia|lia|by vm_compute].
Defined.

(** *** The getters on persisted records *)

Section Getters.

Variable int_of_str : string → option Z.

Lemma int_comprehension_spec (keys : gset string) (items : list (string * json)) :
  NoDup items.*1 →
  (∀ k v, (k, v) ∈ items → k ∈ keys → is_Some (int_value int_of_str v)) →
  ∃ d, int_comprehension int_of_str keys items = Returns d
       ∧ ∀ k, d !! k = if bool_decide (k ∈ keys)
                       then (list_to_map items : gmap string json) !! k
                              ≫= int_value int_of_str
                       else None.
Proof.
  induction items as [|[k v] items IH]; intros Hnd Hconv.
  - exists ∅. split; [done|]. intros k. rewrite lookup_empty. by case_bool_decide.
  - simpl in Hnd. apply NoDup_cons in Hnd as [Hk Hnd].
    destruct IH as (d & Hd & Hlook); [done|..].
    { intros k' v' Hin. apply Hconv. by right. }
    simpl. case_bool_decide as Hkeys.
    + destruct (Hconv k v) as [z Hz]; [by left|done|].
      unfold int_value in Hz. destruct (py_int int_of_str v) as [z'|] eqn:Hv; [|done].
      injection Hz as ->. simpl. rewrite Hd. simpl.
      eexists. split; [done|]. intros k'.
      destruct (decide (k = k')) as [<-|Hne].
      * rewrite !lookup_insert_eq. rewrite bool_decide_eq_true_2 by done.
        simpl. unfold int_value. by rewrite Hv.
      * rewrite !lookup_insert_ne by done. apply Hlook.
    + exists d. split; [done|]. intros k'. rewrite Hlook.
      case_bool_decide as Hk'; [|done].
      rewrite lookup_insert_ne; [done|]. congruence.
Qed.

Lemma read_saved_spec (keys : gset string) (saved : gmap string json) :
  (∀ k v, k ∈ keys → saved !! k = Some v → is_Some (int_value int_of_str v)) →
  ∃ d, read_saved int_of_str keys (JObj saved) = Returns d
       ∧ ∀ k, d !! k = if bool_decide (k ∈ keys)
                       then saved !! k ≫= int_value int_of_str
                       else None.
Proof.
  intros Hconv.
  destruct (int_comprehension_spec keys (map_to_list saved)) as (d & Hd & Hlook).
  - apply NoDup_fst_map_to_list.
  - intros k v Hin Hk. apply (Hconv k v Hk). by apply elem_of_map_to_list.
  - exists d. split; [done|]. intros k. rewrite Hlook.
    by rewrite list_to_map_to_list.
Qed.

(** C10, amended.  For an id with no live marker whose persisted record is
    a dictionary in which every value under x, y, width or height is one
    that [int] converts: [getRect] returns a mapping whose value at each of
    x, y, width, height is the [int] of the record's value when the record
    has the key, and which has no other key; so the label is never in it and
    a field missing from the record is missing from the result.
    [getPosition] does the same with x and y, and needs only the values
    under x and y to convert. *)
Theorem getters_read_persisted_fields marker_id saved m :
  (_rects m !! marker_id = None →
   _rect_configs m !! marker_id = Some (JObj saved) →
   (∀ k v, k ∈ rect_keys → saved !! k = Some v → is_Some (int_value int_of_str v)) →
   ∃ d, getRect int_of_str marker_id m = Returns (Some d)
        ∧ (∀ k, k ∈ rect_keys → d !! k = saved !! k ≫= int_value int_of_str)
        ∧ (∀ k, k ∉ rect_keys → d !! k = None)
        ∧ d !! "label" = None
        ∧ (∀ k, saved !! k = None → d !! k = None))
  ∧ (_points m !! marker_id = None →
     _point_configs m !! marker_id = Some (JObj saved) →
     (∀ k v, k ∈ point_keys → saved !! k = Some v → is_Some (int_value int_of_str v)) →
     ∃ d, getPosition int_of_str marker_id m = Returns (Some d)
          ∧ (∀ k, k ∈ point_keys → d !! k = saved !! k ≫= int_value int_of_str)
          ∧ (∀ k, k ∉ point_keys → d !! k = None)
          ∧ d !! "label" = None
          ∧ (∀ k, saved !! k = None → d !! k = None)).
Proof.
  split.
  - intros Hlive Hrec Hconv.
    destruct (read_saved_spec rect_keys saved) as (d & Hd & Hlook); [done|].
    exists d. unfold getRect. rewrite Hlive, Hrec, Hd. split; [done|].
    split_and!.
    + intros k Hk. rewrite Hlook. by rewrite bool_decide_eq_true_2.
    + intros k Hk. rewrite Hlook. by rewrite bool_decide_eq_false_2.
    + rewrite Hlook. done.
    + intros k Hk. rewrite Hlook, Hk. by case_bool_decide.
  - intros Hlive Hrec Hconv.
    destruct (read_saved_spec point_keys saved) as (d & Hd & Hlook); [done|].
    exists d. unfold getPosition. rewrite Hlive, Hrec, Hd. split; [done|].
    split_and!.
    + intros k Hk. rewrite Hlook. by rewrite bool_decide_eq_true_2.
    + intros k Hk. rewrite Hlook. by rewrite bool_decide_eq_false_2.
    + rewrite Hlook. done.
    + intros k Hk. rewrite Hlook, Hk. by case_bool_decide.
Qed.

End Getters.

(** C10, refuted as stated.  The record of "broken" holds [null] under x:
    the id has a persisted record and no live marker, and [getRect] and
    [getPosition] raise [TypeError] instead of returning a mapping. *)
Lemma getters_null_field_counterexample :
  _rects Examples.persisted_null !! "broken" = None
  ∧ _points Examples.persisted_null !! "broken" = None
  ∧ is_Some (_rect_configs Examples.persisted_null !! "broken")
  ∧ is_Some (_point_configs Examples.persisted_null !! "broken")
  ∧ getRect Examples.no_int_of_str "broken" Examples.persisted_null = Raises TypeError
  ∧ getPosition Examples.no_int_of_str "broken" Examples.persisted_null = Raises TypeError.
Proof. vm_compute. split_and!; eauto. Qed.

Lemma partial_record_converts k v :
  k ∈ rect_keys →
  ({[ "x" := JInt 7; "y" := JInt 8; "width" := JInt 90; "label" := JStr "p" ]}
     : gmap string json) !! k = Some v →
  is_Some (int_value Examples.no_int_of_str v).
Proof.
  unfold rect_keys. rewrite !elem_of_union, !elem_of_singleton.
  intros [[[-> | ->] | ->] | ->]; vm_compute; intros [= <-]; eauto.
Qed.

Lemma getters_read_persisted_fields_witness :
  ∃ d, getRect Examples.no_int_of_str "partial" Examples.persisted_partial
       = Returns (Some d)
       ∧ d !! "x" = Some 7 ∧ d !! "y" = Some 8 ∧ d !! "width" = Some 90
       ∧ d !! "height" = None ∧ d !! "label" = None.
Proof.
  destruct (getters_read_persisted_fields Examples.no_int_of_str "partial"
              {[ "x" := JInt 7; "y" := JInt 8; "width" := JInt 90; "label" := JStr "p" ]}
              Examples.persisted_partial) as [Hrect _].
  destruct (Hrect ltac:(vm_compute; reflexivity) ltac:(vm_compute; reflexivity)
              partial_record_converts)
    as (d & Hd & Hkeys & Hother & Hlabel & Hmissing).
  exists d. split; [exact Hd|].
  rewrite (Hkeys "x"), (Hkeys "y"), (Hkeys "width") by (unfold rect_keys; set_unfold; tauto).
  rewrite (Hmissing "height") by (vm_compute; reflexivity).
  rewrite Hlabel. vm_compute. tauto.
Defined.

End ManagerFacts.

(** ** The command queue *)

Module DispatcherFacts.

Import Dispatcher.

Section Drain.

Context {World Value : Type}.

Implicit Types (q : list (nat * closure World Value)) (fs : gmap nat (future Value)).
Implicit Types (w : World) (s : tk World Value).

Lemma on_future_pending op fid fs f' :
  fs !! fid = Some Pending → op Pending = Returns f' →
  on_future op fid fs = Returns (<[fid := f']> fs).
Proof. intros Hfs Hop. unfold on_future. rewrite Hfs. simpl. by rewrite Hop. Qed.

Lemma result_completed (r : py_result Value) : result (completed r) = Some r.
Proof. by destruct r. Qed.

Lemma run_in_order_app q1 q2 w :
  run_in_order (q1 ++ q2) w
  = let '(rs1, w1) := run_in_order q1 w in
    let '(rs2, w2) := run_in_order q2 w1 in
    (rs1 ++ rs2, w2).
Proof.
  revert w. induction q1 as [|[fid func] q1 IH]; intros w; simpl.
  - by destruct (run_in_order q2 w).
  - destruct (func w) as [r w1]. rewrite IH.
    destruct (run_in_order q1 w1) as [rs1 w2].
    by destruct (run_in_order q2 w2).
Qed.

Lemma run_in_order_ids q w : (run_in_order q w).1.*1 = q.*1.
Proof.
  revert w. induction q as [|[fid func] q IH]; intros w; simpl; [done|].
  destruct (func w) as [r w1]. specialize (IH w1).
  destruct (run_in_order q w1). simpl in *. by f_equal.
Qed.

(** The drain that fails the queue: every entry's future gets the "stopped"
    exception, no function is run, nothing else is touched. *)
Lemma drain_stopped q fs w :
  NoDup q.*1 →
  (∀ fid, fid ∈ q.*1 → fs !! fid = Some Pending) →
  ∃ fs', drain true q fs w = (Returns (), ([], fs', w))
         ∧ (∀ fid, fid ∈ q.*1 → fs' !! fid = Some (Exception stopped))
         ∧ (∀ fid, fid ∉ q.*1 → fs' !! fid = fs !! fid).
Proof.
  revert fs. induction q as [|[fid func] q IH]; intros fs Hnd Hpend.
  - exists fs. split; [done|]. split; [|done]. intros fid Hin. by apply elem_of_nil in Hin.
  - simpl in Hnd. apply NoDup_cons in Hnd as [Hfid Hnd].
    simpl. rewrite (on_future_pending _ fid fs (Exception stopped)); [|apply Hpend; by left|done].
    destruct (IH (<[fid := Exception stopped]> fs)) as (fs' & Hrun & Hin & Hout); [done|..].
    { intros g Hg. rewrite lookup_insert_ne by (intros ->; done). apply Hpend. by right. }
    exists fs'. split; [done|]. split.
    + intros g [->|Hg]%elem_of_cons; [|by apply Hin].
      rewrite Hout by done. apply lookup_insert_eq.
    + intros g Hg. apply not_elem_of_cons in Hg as [Hne Hg].
      rewrite Hout by done. by rewrite lookup_insert_ne.
Qed.

(** The drain that runs the queue: when every function returns or raises an
    [Exception], each is run in turn on the world the previous one left and
    its future holds its own outcome. *)
Lemma drain_runs q fs w :
  NoDup q.*1 →
  (∀ fid, fid ∈ q.*1 → fs !! fid = Some Pending) →
  Forall (λ c, raises_only_Exception c.2) q →
  ∃ fs', drain false q fs w = (Returns (), ([], fs', (run_in_order q w).2))
         ∧ (∀ fid r, (fid, r) ∈ (run_in_order q w).1 → fs' !! fid = Some (completed r))
         ∧ (∀ fid, fid ∉ q.*1 → fs' !! fid = fs !! fid).
Proof.
  revert fs w. induction q as [|[fid func] q IH]; intros fs w Hnd Hpend Hexc.
  - exists fs. split; [done|]. split; [|done]. intros fid r Hin. by apply elem_of_nil in Hin.
  - simpl in Hnd. apply NoDup_cons in Hnd as [Hfid Hnd].
    apply Forall_cons in Hexc as [Hfunc Hexc].
    simpl in Hfunc.
    assert (Hset : ∀ w1 r, func w = (r, w1) →
              drain false ((fid, func) :: q) fs w
              = drain false q (<[fid := completed r]> fs) w1).
    { intros w1 r Hrun. simpl. rewrite Hrun. destruct r as [v|e].
      - by rewrite (on_future_pending _ fid fs (Result v)); [|apply Hpend; by left|].
      - rewrite (Hfunc w e) by (by rewrite Hrun).
        by rewrite (on_future_pending _ fid fs (Exception e)); [|apply Hpend; by left|]. }
    destruct (func w) as [r w1] eqn:Hrun.
    rewrite (Hset w1 r eq_refl).
    destruct (IH (<[fid := completed r]> fs) w1) as (fs' & Hdrain & Hin & Hout); [done|..|done|].
    { intros g Hg. rewrite lookup_insert_ne by (intros ->; done). apply Hpend. by right. }
    simpl. rewrite Hrun.
    destruct (run_in_order q w1) as [rs w2] eqn:Hrest. simpl in *.
    exists fs'. split; [done|]. split.
    + intros g r' [[= -> ->]|Hg]%elem_of_cons; [|by apply Hin].
      rewrite Hout by done. apply lookup_insert_eq.
    + intros g Hg. apply not_elem_of_cons in Hg as [Hne Hg].
      rewrite Hout by done. by rewrite lookup_insert_ne.
Qed.

(** What [submit] establishes. *)
Lemma submit_queue_ok func s :
  queue_ok s → (∀ fid, fid ∈ (_tk_queue s).*1 → fid ∈ dom (futures s)) →
  queue_ok (submit func s).2.
Proof.
  intros [Hnd Hpend] Hdom. unfold submit, queue_ok.
  assert (Hthread : _tk_queue (_ensure_tk_thread s) = _tk_queue s
                    ∧ futures (_ensure_tk_thread s) = futures s).
  { unfold _ensure_tk_thread. by destruct (_tk_thread s). }
  destruct Hthread as [Hq Hf]. simpl. rewrite Hq, Hf.
  set (fid := fresh (dom (futures s))).
  assert (Hfresh : fid ∉ dom (futures s)) by apply is_fresh.
  rewrite fmap_app. simpl. split.
  - apply NoDup_app. split; [done|]. split; [|apply NoDup_singleton].
    intros g Hg ->%list_elem_of_singleton. apply Hfresh, Hdom, Hg.
  - intros g [Hg| ->%list_elem_of_singleton]%elem_of_app.
    + rewrite lookup_insert_ne; [by apply Hpend|]. intros <-. apply Hfresh, Hdom, Hg.
    + apply lookup_insert_eq.
Qed.

Lemma queue_ok_dom s fid : queue_ok s → fid ∈ (_tk_queue s).*1 → fid ∈ dom (futures s).
Proof. intros [_ Hpend] Hin. apply elem_of_dom. rewrite (Hpend fid Hin). by eexists. Qed.

(** A pass of the Tk thread with the stop event clear and no [TclError]. *)
Lemma worker_turn_runs upd s :
  _tk_thread s = Alive → _stop_event s = false → queue_ok s →
  Forall (λ c, raises_only_Exception c.2) (_tk_queue s) →
  let s' := worker_turn (λ w, Some (upd w)) s in
  _tk_thread s' = Alive ∧ _tk_queue s' = [] ∧ _stop_event s' = false
  ∧ world s' = upd (run_in_order (_tk_queue s) (world s)).2
  ∧ (∀ fid r, (fid, r) ∈ (run_in_order (_tk_queue s) (world s)).1 → wait fid s' = Some r)
  ∧ (∀ fid, fid ∉ (_tk_queue s).*1 → futures s' !! fid = futures s !! fid).
Proof.
  destruct s as [q fs stop th w]. simpl. intros -> -> [Hnd Hpend] Hexc. simpl in *.
  destruct (drain_runs q fs w Hnd Hpend Hexc) as (fs' & Hdrain & Hin & Hout).
  unfold worker_turn, _drain_queue. simpl. rewrite Hdrain. simpl.
  split_and!; try done.
  intros fid r Hr. unfold wait. simpl. rewrite (Hin fid r Hr). simpl.
  apply result_completed.
Qed.

(** The last pass of the Tk thread, with the stop event set. *)
Lemma worker_turn_stops update s :
  _tk_thread s = Alive → _stop_event s = true → queue_ok s →
  let s' := worker_turn update s in
  _tk_thread s' = Exited ∧ _tk_queue s' = [] ∧ world s' = world s
  ∧ (∀ fid, fid ∈ (_tk_queue s).*1 → wait fid s' = Some (Raises stopped))
  ∧ (∀ fid, fid ∉ (_tk_queue s).*1 → futures s' !! fid = futures s !! fid).
Proof.
  destruct s as [q fs stop th w]. simpl. intros -> -> [Hnd Hpend]. simpl in *.
  destruct (drain_stopped q fs w Hnd Hpend) as (fs' & Hdrain & Hin & Hout).
  unfold worker_turn, leave_loop, _drain_queue. simpl. rewrite Hdrain. simpl.
  split_and!; try done.
  intros fid Hfid. unfold wait. simpl. by rewrite (Hin fid Hfid).
Qed.

Lemma submit_state func s :
  _tk_thread s = Alive →
  (submit func s).1 = fresh (dom (futures s))
  ∧ _tk_queue (submit func s).2 = _tk_queue s ++ [((submit func s).1, func)]
  ∧ _tk_thread (submit func s).2 = Alive
  ∧ _stop_event (submit func s).2 = _stop_event s
  ∧ world (submit func s).2 = world s.
Proof. destruct s as [q fs stop th w]. simpl. by intros ->. Qed.

(** C3, amended.  Let the Tk thread be alive, not stopped, with a
    well-formed queue of functions that return or raise instances of
    [Exception], the failing one included, and let the toolkit's update
    raise no [TclError].  If a queued function raises [e] when its turn
    comes, then after the pass of the Tk thread: the caller blocked on that
    submission gets [e] raised; the thread is still alive in its loop; every
    function queued behind the failing one has been run and its caller gets
    its outcome; and a function submitted afterwards that raises nothing but
    [Exception]s is run by the next pass. *)
Theorem exception_captured_loop_continues upd s q1 fid func q2 e :
  _tk_thread s = Alive → _stop_event s = false → queue_ok s →
  Forall (λ c, raises_only_Exception c.2) (_tk_queue s) →
  _tk_queue s = q1 ++ (fid, func) :: q2 →
  (func (run_in_order q1 (world s)).2).1 = Raises e →
  let s' := worker_turn (λ w, Some (upd w)) s in
  wait fid s' = Some (Raises e)
  ∧ _tk_thread s' = Alive ∧ _tk_queue s' = []
  ∧ (∀ g r, (g, r) ∈ (run_in_order q2 (func (run_in_order q1 (world s)).2).2).1 →
       wait g s' = Some r)
  ∧ (∀ func', raises_only_Exception func' →
       let s'' := worker_turn (λ w, Some (upd w)) (submit func' s').2 in
       wait (submit func' s').1 s'' = Some (func' (world s')).1
       ∧ _tk_thread s'' = Alive).
Proof.
  intros Halive Hstop Hok Hexc Hq He.
  destruct (worker_turn_runs upd s Halive Hstop Hok Hexc)
    as (Halive' & Hq' & Hstop' & Hw' & Hres & _).
  simpl. set (s' := worker_turn (λ w, Some (upd w)) s) in *.
  assert (Hsplit : (run_in_order (_tk_queue s) (world s)).1
                   = (run_in_order q1 (world s)).1
                     ++ (fid, Raises e)
                     :: (run_in_order q2 (func (run_in_order q1 (world s)).2).2).1).
  { rewrite Hq, run_in_order_app. destruct (run_in_order q1 (world s)) as [rs1 w1].
    simpl in *. destruct (func w1) as [r w2]. simpl in *. subst r.
    by destruct (run_in_order q2 w2). }
  split_and!; try done.
  - apply Hres. rewrite Hsplit. apply elem_of_app. right. by left.
  - intros g r Hg. apply Hres. rewrite Hsplit. apply elem_of_app. right. by right.
  - intros func' Hfunc'.
    destruct (submit_state func' s' Halive') as (Hfid & Hsq & Hsalive & Hsstop & Hsw).
    rewrite Hq', app_nil_l in Hsq.
    destruct (worker_turn_runs upd (submit func' s').2) as (Ha & _ & _ & _ & Hres' & _).
    + done.
    + by rewrite Hsstop.
    + apply submit_queue_ok.
      * split; rewrite Hq'; [apply NoDup_nil_2|]. intros g Hg. by apply elem_of_nil in Hg.
      * rewrite Hq'. intros g Hg. by apply elem_of_nil in Hg.
    + rewrite Hsq. by apply Forall_singleton.
    + split; [|done]. apply Hres'. rewrite Hsq, Hsw. simpl.
      destruct (func' (world s')). simpl. by left.
Qed.

(** C4, amended.  Every command still in the queue when the Tk thread
    leaves its loop has its future completed with the "Tk loop already
    stopped" failure, without being run, so its caller is not left blocked.
    A submission that is pending when [destroy] is called on a running
    dispatcher is not among them: it is ahead of [destroy]'s own function in
    the queue, so, when the queued functions and [destroy]'s function raise
    nothing but [Exception]s and the toolkit's update raises no [TclError],
    the pass that serves [destroy] runs it, its caller gets its own outcome
    and [destroy]'s own blocking call ends. *)
Theorem queued_at_exit_fail_stopped update upd _destroy s :
  _tk_thread s = Alive → queue_ok s →
  (_stop_event s = true →
   let s' := worker_turn update s in
   _tk_thread s' = Exited ∧ _tk_queue s' = [] ∧ world s' = world s
   ∧ ∀ fid, fid ∈ (_tk_queue s).*1 → wait fid s' = Some (Raises stopped))
  ∧ (_stop_event s = false →
     Forall (λ c, raises_only_Exception c.2) (_tk_queue s) →
     raises_only_Exception _destroy →
     let s' := worker_turn (λ w, Some (upd w)) (destroy_submit _destroy s).2 in
     (∀ g r, (g, r) ∈ (run_in_order (_tk_queue s) (world s)).1 → wait g s' = Some r)
     ∧ is_Some (wait (destroy_submit _destroy s).1 s')
     ∧ _tk_queue s' = []).
Proof.
  intros Halive Hok. split.
  - intros Hstop. destruct (worker_turn_stops update s Halive Hstop Hok)
      as (? & ? & ? & ? & _). done.
  - intros Hstop Hexc Hdestroy. unfold destroy_submit.
    destruct (submit_state _destroy s Halive) as (Hfid & Hsq & Hsalive & Hsstop & Hsw).
    destruct (worker_turn_runs upd (submit _destroy s).2) as (_ & Hq' & _ & _ & Hres & _).
    + done.
    + by rewrite Hsstop.
    + apply submit_queue_ok; [done|]. intros g. by apply queue_ok_dom.
    + rewrite Hsq. apply Forall_app. split; [done|]. by apply Forall_singleton.
    + simpl. rewrite Hsq, Hsw, run_in_order_app in Hres.
      destruct (run_in_order (_tk_queue s) (world s)) as [rs w1]. simpl in *.
      destruct (_destroy w1) as [r w2]. simpl in Hres.
      split_and!; [|by eexists; apply Hres, elem_of_app; right; left|done].
      intros g r' Hg. apply Hres, elem_of_app. by left.
Qed.

End Drain.

(** C4, refuted as stated.  In the scenario a submission that returns 7 is
    pending, not executed, when [destroy] is called.  When the dispatcher
    has stopped, its future holds the result 7, not the "stopped" failure. *)
Lemma pending_at_destroy_counterexample :
  wait Examples.pending_submit.1 Examples.pending_submit.2 = None
  ∧ _tk_thread Examples.after_destroy = Exited
  ∧ wait Examples.pending_submit.1 Examples.after_destroy = Some (Returns 7)
  ∧ wait Examples.pending_submit.1 Examples.after_destroy ≠ Some (Raises stopped).
Proof. by vm_compute. Qed.

(** C3, refuted as stated.  A queued function raises [SystemExit], which is
    not an [Exception].  After the pass of the Tk thread the future of its
    caller is still pending, the thread has ended with the exception, and
    the function queued behind it has not been run: it is still in the queue
    with its future pending, and further passes change nothing. *)
Lemma non_exception_halts_loop_counterexample :
  let s' := worker_turn Examples.no_events Examples.exiting_then_good in
  (Examples.raises_SystemExit (world Examples.exiting_then_good)).1
  = Raises (PyExn "SystemExit" "1" false)
  ∧ wait 0%nat s' = None
  ∧ _tk_thread s' = Crashed (PyExn "SystemExit" "1" false)
  ∧ (_tk_queue s').*1 = [1%nat]
  ∧ wait 1%nat s' = None
  ∧ worker_turn Examples.no_events s' = s'.
Proof. by vm_compute. Qed.

(** The example queues are well formed and their functions raise nothing
    but instances of [Exception]. *)
Lemma example_closures_raise_only_Exception :
  raises_only_Exception Examples.returns_seven
  ∧ raises_only_Exception Examples.returns_zero
  ∧ raises_only_Exception Examples.raises_KeyError.
Proof.
  split_and!; intros w e; simpl; intros [= <-]; done.
Qed.

Lemma failing_then_good_queue :
  _tk_queue Examples.failing_then_good
  = [] ++ (0%nat, Examples.raises_KeyError) :: [(1%nat, Examples.returns_seven)].
Proof. by vm_compute. Qed.

Lemma failing_then_good_ok :
  queue_ok Examples.failing_then_good
  ∧ Forall (λ c, raises_only_Exception c.2) (_tk_queue Examples.failing_then_good).
Proof.
  destruct example_closures_raise_only_Exception as (H7 & H0 & HK).
  split; [split|].
  - rewrite failing_then_good_queue. simpl. apply NoDup_cons. split; [|apply NoDup_singleton].
    by intros [=]%list_elem_of_singleton.
  - rewrite failing_then_good_queue. simpl.
    intros fid [->|[->|[]%elem_of_nil]%elem_of_cons]%elem_of_cons; by vm_compute.
  - rewrite failing_then_good_queue. simpl. by repeat constructor.
Qed.

Lemma pending_submit_ok :
  queue_ok Examples.pending_submit.2
  ∧ Forall (λ c, raises_only_Exception c.2) (_tk_queue Examples.pending_submit.2).
Proof.
  destruct example_closures_raise_only_Exception as (H7 & H0 & HK).
  assert (Hq : _tk_queue Examples.pending_submit.2 = [(0%nat, Examples.returns_seven)])
    by (by vm_compute).
  split; [split|]; rewrite Hq; simpl.
  - apply NoDup_singleton.
  - by intros fid ->%list_elem_of_singleton.
  - by repeat constructor.
Qed.

Lemma exception_captured_loop_continues_witness :
  let s' := worker_turn Examples.no_events Examples.failing_then_good in
  wait 0%nat s' = Some (Raises (PyExn "KeyError" "missing" true))
  ∧ _tk_thread s' = Alive
  ∧ wait 1%nat s' = Some (Returns 7).
Proof.
  destruct failing_then_good_ok as [Hok Hexc].
  destruct (exception_captured_loop_continues (λ w, w) Examples.failing_then_good
              [] 0%nat Examples.raises_KeyError [(1%nat, Examples.returns_seven)]
              (PyExn "KeyError" "missing" true)
              eq_refl eq_refl Hok Hexc failing_then_good_queue eq_refl)
    as (Hraised & Halive & _ & Hbehind & _).
  split; [exact Hraised|]. split; [exact Halive|].
  apply Hbehind. simpl. by left.
Defined.

Lemma queued_at_exit_fail_stopped_witness :
  let stopped_tk := worker_turn Examples.no_events Examples.stopping in
  let served := worker_turn Examples.no_events Examples.destroy_called.2 in
  (_tk_thread stopped_tk = Exited
   ∧ wait 0%nat stopped_tk = Some (Raises stopped)
   ∧ wait 1%nat stopped_tk = Some (Raises stopped))
  ∧ wait 0%nat served = Some (Returns 7).
Proof.
  destruct failing_then_good_ok as [[Hnd Hpend] _].
  destruct pending_submit_ok as [Hok Hexc].
  destruct example_closures_raise_only_Exception as (_ & H0 & _).
  assert (Hstopping : queue_ok Examples.stopping) by (split; [exact Hnd|exact Hpend]).
  destruct (queued_at_exit_fail_stopped Examples.no_events (λ w, w) Examples.returns_zero
              Examples.stopping eq_refl Hstopping) as [Hexit _].
  destruct (queued_at_exit_fail_stopped Examples.no_events (λ w, w) Examples.returns_zero
              Examples.pending_submit.2 eq_refl Hok) as [_ Hserve].
  destruct (Hexit eq_refl) as (Hthread & _ & _ & Hfail).
  destruct (Hserve eq_refl Hexc H0) as (Hown & _ & _).
  split; [split; [exact Hthread|split]|].
  - apply Hfail. change (0%nat ∈ (_tk_queue Examples.failing_then_good).*1).
    rewrite failing_then_good_queue. simpl. by left.
  - apply Hfail. change (1%nat ∈ (_tk_queue Examples.failing_then_good).*1).
    rewrite failing_then_good_queue. simpl. right. by left.
  - apply Hown. simpl. by left.
Defined.

End DispatcherFacts.

(** ** The persisted document *)

Module ConfigStoreFacts.

Import ConfigStore.

Lemma append_assoc (a b c : string) : (a +:+ b) +:+ c = a +:+ (b +:+ c).
Proof.
  induction a as [|ch a IH]; [done|].
  change (String ch ((a +:+ b) +:+ c) = String ch (a +:+ (b +:+ c))). by f_equal.
Qed.

Lemma append_empty_r (a : string) : a +:+ "" = a.
Proof.
  induction a as [|ch a IH]; [done|].
  change (String ch (a +:+ "") = String ch a). by f_equal.
Qed.

Lemma append_empty_l (a : string) : "" +:+ a = a.
Proof. done. Qed.

Lemma exec_all_app ops1 ops2 (d : directory) :
  exec_all (ops1 ++ ops2) d
  = match exec_all ops1 d with
    | (Returns _, d1) => exec_all ops2 d1
    | (Raises e, d1) => (Raises e, d1)
    end.
Proof.
  revert d. induction ops1 as [|op ops1 IH]; intros d; simpl; [done|].
  destruct (exec op d) as [d1|e]; [apply IH|done].
Qed.

(** Writing chunks to an open temporary file only grows that file. *)
Lemma exec_writes p chunks (d : directory) c :
  d !! p = Some (File true c) →
  exec_all (Write p <$> chunks) d
  = (Returns (), <[p := File true (c +:+ foldr String.append "" chunks)]> d).
Proof.
  revert d c. induction chunks as [|chunk chunks IH]; intros d c Hp; simpl.
  - rewrite append_empty_r. by rewrite insert_id.
  - rewrite Hp. rewrite (IH _ (c +:+ chunk)) by apply lookup_insert_eq.
    by rewrite insert_insert_eq, append_assoc.
Qed.

Section Codec.

Variable json_load : string → py_result json.
Variable json_dump : json → list string * option py_exn.

#[local] Abbreviation written := (written json_dump).
#[local] Abbreviation dump_ops := (dump_ops json_dump).
#[local] Abbreviation write_ops := (write_ops json_dump).
#[local] Abbreviation interrupted := (interrupted json_dump).
#[local] Abbreviation _write_config_file := (_write_config_file json_dump).
#[local] Abbreviation _save_all_configs := (_save_all_configs json_dump).
#[local] Abbreviation read_json := (read_json json_load).
#[local] Abbreviation _load_legacy_file := (_load_legacy_file json_load).
#[local] Abbreviation _migrate_legacy_configs := (_migrate_legacy_configs json_load json_dump).
#[local] Abbreviation _load_all_configs := (_load_all_configs json_load json_dump).

(** The steps of a complete write: all but the last work on the temporary
    file, the last renames it onto the canonical path. *)
Lemma write_ops_shape data :
  (json_dump data).2 = None →
  write_ops data
  = OpenW TMP_FILENAME :: (Write TMP_FILENAME <$> (json_dump data).1)
      ++ [Replace TMP_FILENAME CONFIG_FILENAME]
  ∧ last (write_ops data) = Some (Replace TMP_FILENAME CONFIG_FILENAME).
Proof.
  intros Hdone. unfold ConfigStore.write_ops, ConfigStore.dump_ops. rewrite Hdone.
  split; [done|]. apply last_snoc.
Qed.

(** The [with] block: the temporary file ends up with what the dump wrote,
    unless it cannot be opened. *)
Lemma dump_ops_run data (d : directory) :
  exec_all (dump_ops data) d
  = match d !! TMP_FILENAME with
    | None | Some (File true _) =>
        (Returns (), <[TMP_FILENAME := File true (written data)]> d)
    | _ => (Raises OSError, d)
    end.
Proof.
  unfold ConfigStore.dump_ops, ConfigStore.written. simpl.
  destruct (d !! TMP_FILENAME) as [[[] c0|]|] eqn:Htmp; simpl; try done.
  all: rewrite (exec_writes _ _ _ "") by apply lookup_insert_eq.
  all: by rewrite insert_insert_eq, append_empty_l.
Qed.

(** The directory after an interruption, by the number of completed steps. *)
Lemma interrupted_canonical k data (d : directory) :
  interrupted k data d !! CONFIG_FILENAME = d !! CONFIG_FILENAME
  ∨ ((json_dump data).2 = None
     ∧ interrupted k data d !! CONFIG_FILENAME = Some (File true (written data))).
Proof.
  unfold ConfigStore.interrupted, ConfigStore.write_ops, ConfigStore.dump_ops,
    ConfigStore.written.
  destruct (json_dump data) as [chunks oe]. cbn [fst snd].
  destruct k as [|k]; [by left|]. simpl.
  destruct (d !! TMP_FILENAME) as [[[] c0|]|] eqn:Htmp; simpl; try (by left).
  all: set (d1 := <[TMP_FILENAME := File true ""]> d).
  all: assert (Hd1 : d1 !! TMP_FILENAME = Some (File true "")) by apply lookup_insert_eq.
  all: assert (Hc1 : d1 !! CONFIG_FILENAME = d !! CONFIG_FILENAME)
         by (by apply lookup_insert_ne).
  all: destruct (decide (k ≤ length (Write TMP_FILENAME <$> chunks))%nat) as [Hk|Hk].
  all: try (rewrite take_app_le by done; rewrite <- fmap_take;
            rewrite (exec_writes _ _ d1 "") by done; simpl;
            left; rewrite lookup_insert_ne by done; exact Hc1).
  all: rewrite take_ge by (rewrite length_app; destruct oe; simpl; lia).
  all: rewrite exec_all_app, (exec_writes _ _ d1 "") by done.
  all: destruct oe as [e|]; simpl;
         [left; rewrite lookup_insert_ne by done; exact Hc1|].
  all: rewrite append_empty_l, lookup_insert_eq, lookup_insert_ne by done; rewrite Hc1.
  all: destruct (d !! CONFIG_FILENAME) as [[]|] eqn:Hcfg; simpl.
  all: first [ right; split; [done|]; apply lookup_insert_eq
             | left; rewrite lookup_insert_ne by done; by rewrite Hc1 ].
Qed.

(** Just before the rename the temporary file holds the whole text. *)
Lemma interrupted_before_rename data (d : directory) :
  writable (d !! TMP_FILENAME) →
  interrupted (length (dump_ops data)) data d !! TMP_FILENAME
  = Some (File true (written data)).
Proof.
  intros Htmp. unfold ConfigStore.interrupted, ConfigStore.write_ops.
  rewrite take_app_length, dump_ops_run.
  destruct (d !! TMP_FILENAME) as [[[] c0|]|]; try done; apply lookup_insert_eq.
Qed.

(** A write that is not interrupted, by what the directory holds at the
    two paths and by the outcome of the dump. *)
Lemma write_config_file_cases data (d : directory) :
  _write_config_file data d
  = match d !! TMP_FILENAME with
    | None | Some (File true _) =>
        match (json_dump data).2 with
        | Some e => (Raises e, <[TMP_FILENAME := File true (written data)]> d)
        | None =>
            match d !! CONFIG_FILENAME with
            | Some Dir => (Raises OSError, <[TMP_FILENAME := File true (written data)]> d)
            | _ => (Returns (),
                    <[CONFIG_FILENAME := File true (written data)]> (delete TMP_FILENAME d))
            end
        end
    | _ => (Raises OSError, d)
    end.
Proof.
  unfold ConfigStore._write_config_file. rewrite dump_ops_run.
  destruct (d !! TMP_FILENAME) as [[[] c0|]|] eqn:Htmp; try done.
  all: destruct (json_dump data).2 as [e|]; [done|].
  all: simpl; rewrite lookup_insert_eq, lookup_insert_ne by done.
  all: destruct (d !! CONFIG_FILENAME) as [[]|] eqn:Hcfg; simpl; try done.
  all: by rewrite delete_insert_eq.
Qed.

(** A write that can open the temporary file, completes its dump and whose
    target is not a directory returns and leaves the new text at the
    canonical path. *)
Lemma write_succeeds data (d : directory) :
  writable (d !! TMP_FILENAME) → d !! CONFIG_FILENAME ≠ Some Dir →
  (json_dump data).2 = None →
  _write_config_file data d
  = (Returns (), <[CONFIG_FILENAME := File true (written data)]> (delete TMP_FILENAME d)).
Proof.
  intros Htmp Hcfg Hdone. rewrite write_config_file_cases, Hdone.
  destruct (d !! TMP_FILENAME) as [[[] c0|]|]; try done.
  all: by destruct (d !! CONFIG_FILENAME) as [[]|].
Qed.

(** A write returns exactly when the temporary file can be opened, the dump
    completes and the rename is not refused. *)
Lemma write_returns_iff data (d : directory) :
  (_write_config_file data d).1 = Returns ()
  ↔ writable (d !! TMP_FILENAME) ∧ d !! CONFIG_FILENAME ≠ Some Dir
    ∧ (json_dump data).2 = None.
Proof.
  rewrite write_config_file_cases.
  destruct (d !! TMP_FILENAME) as [[[] c0|]|] eqn:Htmp;
    try (split; [done|by intros [[] _]]).
  all: destruct (json_dump data).2 as [e|]; [split; [done|by intros (_ & _ & ?)]|].
  all: destruct (d !! CONFIG_FILENAME) as [[]|] eqn:Hcfg; simpl.
  all: first [ split; [done|by intros (_ & ? & _)] | done ].
Qed.

(** A write that raises has not touched the canonical path; one that returns
    has completed its dump and left the whole text there. *)
Lemma write_outcome data (d : directory) :
  match (_write_config_file data d).1 with
  | Raises _ => (_write_config_file data d).2 !! CONFIG_FILENAME = d !! CONFIG_FILENAME
  | Returns _ =>
      (json_dump data).2 = None
      ∧ (_write_config_file data d).2 !! CONFIG_FILENAME = Some (File true (written data))
  end.
Proof.
  rewrite write_config_file_cases.
  destruct (d !! TMP_FILENAME) as [[[] c0|]|] eqn:Htmp; try done.
  all: destruct (json_dump data).2 as [e|]; simpl; [by rewrite lookup_insert_ne|].
  all: destruct (d !! CONFIG_FILENAME) as [[]|] eqn:Hcfg; simpl.
  all: first [ split; [done|]; apply lookup_insert_eq
             | by rewrite lookup_insert_ne ].
Qed.

(** C7.  [_write_config_file] (and [_save_all_configs], which is that write
    on the document with both namespaces put back) opens the temporary file,
    writes the text of the document to it and, once the dump is complete,
    renames it onto the canonical path as its last step.  The write returns
    exactly when the temporary file can be opened, the dump completes and
    the canonical path is not a directory; the directory is then the old one
    with the whole new text at the canonical path and no temporary file, and
    just before the rename the temporary file holds that text.  Whatever the
    number of steps completed before an interruption, the canonical path
    holds what it held before the write or the whole text of the new
    document, and a reader gets what it would have read before or what it
    reads from the whole new text.  A write that raises leaves the canonical
    path as it was. *)
Theorem save_is_atomic data (d : directory) :
  ((json_dump data).2 = None →
   last (write_ops data) = Some (Replace TMP_FILENAME CONFIG_FILENAME))
  ∧ ((_write_config_file data d).1 = Returns ()
     ↔ writable (d !! TMP_FILENAME) ∧ d !! CONFIG_FILENAME ≠ Some Dir
       ∧ (json_dump data).2 = None)
  ∧ (writable (d !! TMP_FILENAME) → d !! CONFIG_FILENAME ≠ Some Dir →
     (json_dump data).2 = None →
     _write_config_file data d
     = (Returns (),
        <[CONFIG_FILENAME := File true (written data)]> (delete TMP_FILENAME d))
     ∧ interrupted (length (dump_ops data)) data d !! TMP_FILENAME
       = Some (File true (written data)))
  ∧ (∀ k, interrupted k data d !! CONFIG_FILENAME = d !! CONFIG_FILENAME
          ∨ ((json_dump data).2 = None
             ∧ interrupted k data d !! CONFIG_FILENAME = Some (File true (written data))))
  ∧ (∀ k, read_json CONFIG_FILENAME (interrupted k data d) = read_json CONFIG_FILENAME d
          ∨ ((json_dump data).2 = None
             ∧ read_json CONFIG_FILENAME (interrupted k data d) = json_load (written data)))
  ∧ (∀ e, (_write_config_file data d).1 = Raises e →
       (_write_config_file data d).2 !! CONFIG_FILENAME = d !! CONFIG_FILENAME)
  ∧ (∀ _config rects points,
       let doc := <["points" := JObj points]> (<["rects" := JObj rects]> _config) in
       _save_all_configs _config rects points d
       = ((_write_config_file (JObj doc) d).1, (doc, (_write_config_file (JObj doc) d).2))).
Proof.
  split_and!.
  - intros Hdone. by apply write_ops_shape.
  - apply write_returns_iff.
  - intros Htmp Hcfg Hdone. split; [by apply write_succeeds|].
    by apply interrupted_before_rename.
  - intros k. apply interrupted_canonical.
  - intros k. unfold ConfigStore.read_json.
    destruct (interrupted_canonical k data d) as [-> | [Hdone ->]]; [by left|by right].
  - intros e He. pose proof (write_outcome data d) as H. by rewrite He in H.
  - intros _config rects points. unfold ConfigStore._save_all_configs. cbv zeta.
    by destruct (ConfigStore._write_config_file _ _ d).
Qed.

(** *** Loading *)

Lemma namespace_dict data key : ∃ ns, namespace data key = JObj ns.
Proof. unfold namespace. destruct (data !! key) as [[]|]; eauto. Qed.

(** When the unified file exists and reading it does not raise outside the
    two caught classes, the load returns a document with both namespaces and
    leaves the directory alone. *)
Lemma load_unified_recovers (d : directory) :
  is_Some (d !! CONFIG_FILENAME) →
  (∀ e, read_json CONFIG_FILENAME d = Raises e → caught e = true) →
  ∃ doc, _load_all_configs d = (Returns doc, d) ∧ two_namespaces doc.
Proof.
  intros Hex Hcaught. unfold ConfigStore._load_all_configs, exists_.
  rewrite bool_decide_eq_true_2 by done.
  destruct (read_json CONFIG_FILENAME d) as [data|e] eqn:Hread.
  - destruct (namespace_dict (default ∅ (as_dict data)) "rects") as [r Hr].
    destruct (namespace_dict (default ∅ (as_dict data)) "points") as [p Hp].
    eexists. split; [done|]. exists r, p. by rewrite Hr, Hp.
  - rewrite (Hcaught e eq_refl). eexists. split; [done|]. by exists ∅, ∅.
Qed.

(** Once the unified file exists, the load looks at nothing else and writes
    nothing. *)
Lemma load_unified_only (d d' : directory) :
  is_Some (d !! CONFIG_FILENAME) →
  d' !! CONFIG_FILENAME = d !! CONFIG_FILENAME →
  (_load_all_configs d).2 = d
  ∧ (_load_all_configs d').2 = d'
  ∧ (_load_all_configs d').1 = (_load_all_configs d).1.
Proof.
  intros Hex Heq. unfold ConfigStore._load_all_configs, exists_, ConfigStore.read_json.
  rewrite Heq. rewrite bool_decide_eq_true_2 by done.
  destruct (d !! CONFIG_FILENAME) as [[[] c|]|]; simpl; try done.
  destruct (json_load c) as [v|e]; simpl; [done|]. by destruct (caught e).
Qed.

(** C5, at the failing case: when the unified file exists and can be opened
    but its bytes are not UTF-8, [json.load] raises [UnicodeDecodeError],
    which is neither [JSONDecodeError] nor [OSError], and the exception
    leaves [_load_all_configs]. *)
Theorem load_raises_on_undecodable (d : directory) c :
  d !! CONFIG_FILENAME = Some (File true c) →
  json_load c = Raises UnicodeDecodeError →
  _load_all_configs d = (Raises UnicodeDecodeError, d).
Proof.
  intros Hfile Hload. unfold ConfigStore._load_all_configs, exists_.
  rewrite bool_decide_eq_true_2 by (by rewrite Hfile).
  unfold ConfigStore.read_json. by rewrite Hfile, Hload.
Qed.

(** The same through a legacy file. *)
Lemma load_legacy_raises_on_undecodable (d : directory) c :
  d !! CONFIG_FILENAME = None →
  d !! "rects.json" = Some (File true c) →
  json_load c = Raises UnicodeDecodeError →
  _load_all_configs d = (Raises UnicodeDecodeError, d).
Proof.
  intros Hcfg Hfile Hload.
  unfold ConfigStore._load_all_configs, ConfigStore._migrate_legacy_configs, exists_.
  rewrite bool_decide_eq_false_2 by (rewrite Hcfg; by intros [? ?]).
  unfold ConfigStore._load_legacy_file at 1, exists_, ConfigStore.read_json.
  rewrite bool_decide_eq_true_2 by (by rewrite Hfile).
  by rewrite Hfile, Hload.
Qed.

(** C6, amended.  When the unified file is absent, neither legacy file
    makes the read raise, at least one legacy file yields a non-empty
    dictionary, the temporary path can be opened for writing and the dump of
    the migrated document completes, the first load returns the document
    made of the two legacy dictionaries and leaves its text at the canonical
    path, without touching the legacy files.  Every later load, whatever has
    become of the legacy files, leaves the directory as it is and has the
    outcome that the unified file alone decides; it returns the migrated
    document when [json.load] reads that document back from the text
    written. *)
Theorem migration_once (d : directory) rects points :
  d !! CONFIG_FILENAME = None →
  _load_legacy_file "rects.json" d = Returns rects →
  _load_legacy_file "points.json" d = Returns points →
  is_empty rects && is_empty points = false →
  writable (d !! TMP_FILENAME) →
  let doc : gmap string json := {[ "rects" := JObj rects; "points" := JObj points ]} in
  (json_dump (JObj doc)).2 = None →
  ∃ d1, _load_all_configs d = (Returns doc, d1)
        ∧ d1 !! CONFIG_FILENAME = Some (File true (written (JObj doc)))
        ∧ (∀ name, name ≠ CONFIG_FILENAME → name ≠ TMP_FILENAME → d1 !! name = d !! name)
        ∧ (∀ d2 : directory, d2 !! CONFIG_FILENAME = d1 !! CONFIG_FILENAME →
             (_load_all_configs d2).2 = d2
             ∧ (_load_all_configs d2).1 = (_load_all_configs d1).1)
        ∧ (json_load (written (JObj doc)) = Returns (JObj doc) →
           ∀ d2 : directory, d2 !! CONFIG_FILENAME = d1 !! CONFIG_FILENAME →
             _load_all_configs d2 = (Returns doc, d2)).
Proof.
  intros Hcfg Hrects Hpoints Hne Htmp doc Hdone.
  assert (Hw : _write_config_file (JObj doc) d
               = (Returns (), <[CONFIG_FILENAME := File true (written (JObj doc))]>
                                (delete TMP_FILENAME d))).
  { apply write_succeeds; [done| |done]. by rewrite Hcfg. }
  eexists. split_and!.
  - unfold ConfigStore._load_all_configs, ConfigStore._migrate_legacy_configs, exists_.
    rewrite bool_decide_eq_false_2 by (rewrite Hcfg; by intros [? ?]).
    rewrite Hrects, Hpoints, Hne. fold doc. by rewrite Hw.
  - apply lookup_insert_eq.
  - intros name Hn1 Hn2. rewrite lookup_insert_ne by done. by apply lookup_delete_ne.
  - intros d2 Hd2.
    destruct (load_unified_only
                (<[CONFIG_FILENAME := File true (written (JObj doc))]> (delete TMP_FILENAME d))
                d2) as (_ & Hsame & Hout); [|done|done].
    rewrite lookup_insert_eq. by eexists.
  - intros Hround d2 Hd2. rewrite lookup_insert_eq in Hd2.
    unfold ConfigStore._load_all_configs, exists_, ConfigStore.read_json.
    rewrite bool_decide_eq_true_2 by (by rewrite Hd2).
    rewrite Hd2, Hround. simpl. unfold namespace, doc.
    rewrite lookup_insert_eq, lookup_insert_ne, lookup_singleton_eq by done. done.
Qed.

End Codec.

(** C6, refuted as stated.  With the unified file absent and a legacy file
    "rects.json" that holds the readable object {}, the first load writes
    nothing to the canonical path; a later load still reads the legacy
    files, and migrates them once one of them has an entry. *)
Lemma empty_legacy_not_migrated :
  let load := _load_all_configs Examples.sample_load Examples.sample_dump in
  Examples.empty_legacy !! CONFIG_FILENAME = None
  ∧ read_json Examples.sample_load "rects.json" Examples.empty_legacy = Returns (JObj ∅)
  ∧ (load Examples.empty_legacy).2 !! CONFIG_FILENAME = None
  ∧ (load (<["rects.json" := File true Examples.legacy_text]>
             (load Examples.empty_legacy).2)).1 = Returns Examples.migrated.
Proof. by vm_compute. Qed.

Lemma save_is_atomic_witness :
  _write_config_file Examples.sample_dump (JObj Examples.migrated) Examples.one_legacy
  = (Returns (),
     <[CONFIG_FILENAME := File true Examples.migrated_text]> Examples.one_legacy)
  ∧ (_write_config_file Examples.sample_dump (JObj (<["rects" := JObj Examples.surrogate_rects]>
                                                      Examples.migrated))
       Examples.undecodable).2 !! CONFIG_FILENAME
    = Some (File true Examples.binary_text).
Proof.
  destruct (save_is_atomic Examples.sample_load Examples.sample_dump
              (JObj Examples.migrated) Examples.one_legacy)
    as (_ & _ & Hwrites & _).
  destruct (save_is_atomic Examples.sample_load Examples.sample_dump
              (JObj (<["rects" := JObj Examples.surrogate_rects]> Examples.migrated))
              Examples.undecodable)
    as (_ & _ & _ & _ & _ & Hraises & _).
  split.
  - destruct Hwrites as [Hw _]; [vm_compute; exact I|vm_compute; discriminate
                                |vm_compute; reflexivity|].
    rewrite Hw. vm_compute. reflexivity.
  - rewrite (Hraises UnicodeEncodeError); vm_compute; reflexivity.
Defined.

Lemma load_raises_on_undecodable_witness :
  _load_all_configs Examples.sample_load Examples.sample_dump Examples.undecodable
  = (Raises UnicodeDecodeError, Examples.undecodable).
Proof.
  apply (load_raises_on_undecodable Examples.sample_load Examples.sample_dump
           Examples.undecodable Examples.binary_text);
    vm_compute; reflexivity.
Defined.

Lemma migration_once_witness :
  ∃ d1, _load_all_configs Examples.sample_load Examples.sample_dump Examples.one_legacy
        = (Returns Examples.migrated, d1)
        ∧ d1 !! CONFIG_FILENAME = Some (File true Examples.migrated_text)
        ∧ _load_all_configs Examples.sample_load Examples.sample_dump
            (<["rects.json" := File true "{}"]> d1)
          = (Returns Examples.migrated, <["rects.json" := File true "{}"]> d1).
Proof.
  destruct (migration_once Examples.sample_load Examples.sample_dump Examples.one_legacy
              Examples.legacy_rects ∅)
    as (d1 & Hload & Hfile & _ & _ & Hlater).
  - vm_compute; reflexivity.
  - vm_compute; reflexivity.
  - vm_compute; reflexivity.
  - vm_compute; reflexivity.
  - vm_compute; exact I.
  - vm_compute; reflexivity.
  - exists d1. split; [exact Hload|]. split; [exact Hfile|].
    apply Hlater; [vm_compute; reflexivity|]. apply lookup_insert_ne. discriminate.
Defined.

End ConfigStoreFacts.

(** ** Proof steps shared by the facts about rectangle markers *)

Module OverlayTactics.

Import Overlay.

(** The attributes a method branches on, as variables or as cases. *)
Ltac fix_widgets o :=
  destruct o as [ox oy ow oh ol ocb dg rz ohs d r osx osy oox ooy osw osh
                 [ot|] lw rh v oc].

Ltac settle :=
  cbn -[Z.add Z.sub Z.max Z.min Z.leb Z.ltb truthy] in *.

Ltac finish := repeat split; first [reflexivity | done].

Ltac handler_cases :=
  repeat first
    [ progress settle
    | progress unfold deliver, _on_mouse_press, _on_resize_press, _on_resize_drag,
        _on_mouse_drag_global, _on_resize_release, _on_mouse_release_global,
        _is_in_resize_handle, _notify_callback, _create_resize_handle, _create_label,
        _update_geometry in *
    | case_match ].

End OverlayTactics.

(** ** The rectangle marker between calls *)

Module OverlayInvariants.

Import Overlay.
Import OverlayTactics.

Lemma consistent_init x y w h l cb st : consistent (__init__ x y w h l cb st).
Proof. done. Qed.

Lemma consistent_show o : consistent o → consistent (show o).
Proof.
  fix_widgets o; unfold consistent, show; settle.
  - intros (-> & -> & -> & ->). settle. finish.
  - intros (-> & -> & ->). settle.
    destruct (truthy ol) eqn:Hl, rz; settle; rewrite ?Hl; finish.
Qed.










Lemma exclusive_call scr m o :
  dragging o && resizing o = false →
  dragging (call scr m o) && resizing (call scr m o) = false.
Proof.
  destruct m as [| |nx ny notify|w h notify|l|p].
  - fix_widgets o; destruct v, d, r; try done; unfold call, show; settle;
      destruct (truthy ol), rz; done.
  - fix_widgets o; destruct v, d, r; done.
  - fix_widgets o; destruct v, d, r, notify, ocb; done.
  - fix_widgets o; destruct v, d, r, notify, ocb, rz, lw; done.
  - fix_widgets o; destruct v, d, r; try done; unfold call, update_label; settle;
      destruct (truthy l), lw; done.
  - fix_widgets o; destruct p as [[] ev|[] ev|[] ev], dg, rz, d, r, ocb, lw, rh;
      try done; intros _; handler_cases; done.
Qed.

(** X3.  A marker is never dragged and resized at once: if the two flags are
    not both set, no sequence of method calls and pointer events sets both. *)
Theorem never_dragging_and_resizing scr ms o :
  dragging o && resizing o = false →
  dragging (calls_in_order scr ms o) && resizing (calls_in_order scr ms o) = false.
Proof.
  revert o. induction ms as [|m ms IH]; intros o Ho; [done|].
  apply IH. by apply exclusive_call.
Qed.

Lemma price_box_consistent : consistent Examples.price_box.
Proof. apply consistent_show, consistent_init. Qed.


Lemma never_dragging_and_resizing_witness :
  let o := calls_in_order Examples.screen_hd
             [Pointer Examples.press_handle; Pointer Examples.press_canvas;
              UpdateLabel "moved"; Pointer Examples.move_canvas]
             Examples.price_box in
  dragging o && resizing o = false.
Proof.
  apply (never_dragging_and_resizing Examples.screen_hd _ Examples.price_box).
  reflexivity.
Defined.

End OverlayInvariants.

(** ** What pointer gestures and programmatic updates do to a rectangle *)

Module OverlayBehaviour.

Import Overlay.
Import OverlayTactics.

(** X4.  A drag is a translation by the movement of the pointer, clamped:
    on a visible, consistent, draggable marker that is not being resized, a
    press on the canvas outside the handle, a move and a release put the
    marker at its old position plus the pointer's displacement between
    press and move, clamped to the screen; the size does not change, the
    callback is called once, with the final geometry, and the marker is idle
    again. *)
Theorem drag_gesture scr ev0 ev1 ev2 o :
  consistent o → visible o = true → draggable o = true → resizing o = false →
  _is_in_resize_handle (ev_x ev0) (ev_y ev0) o = false →
  is_Some (callback o) →
  let o' := run scr [Press OnCanvas ev0; Motion OnCanvas ev1; Release OnCanvas ev2] o in
  x o' = clamp (x o + (x_root ev1 - x_root ev0)) (screen_width scr - width o)
  ∧ y o' = clamp (y o + (y_root ev1 - y_root ev0)) (screen_height scr - height o)
  ∧ width o' = width o ∧ height o' = height o
  ∧ calls o' = calls o ++ [get_position o']
  ∧ in_progress o' = false.
Proof.
  fix_widgets o; unfold consistent; settle.
  - intros (-> & -> & -> & ->) _ -> -> Hhandle [cb ->].
    unfold run, deliver, _on_mouse_press. settle. rewrite Hhandle. settle.
    unfold _on_mouse_drag_global, _on_mouse_release_global, _notify_callback,
      _update_geometry, clamp, in_progress. settle. finish.
  - by intros (-> & _).
Qed.

(** X5.  A resize keeps the top-left corner and moves the bottom-right one
    with the pointer: on a visible, consistent, resizable marker, a press on
    the handle, a move and a release leave the position unchanged and give
    the width the old width plus the pointer's displacement, raised to 50
    and then capped at the distance from the left edge to the right edge of
    the screen (likewise for the height); the callback is called once, with
    the final geometry, and the handle follows the corner. *)
Theorem resize_gesture scr ev0 ev1 ev2 o :
  consistent o → visible o = true → resizable o = true →
  is_Some (callback o) →
  let o' := run scr [Press OnHandle ev0; Motion OnHandle ev1; Release OnHandle ev2] o in
  x o' = x o ∧ y o' = y o
  ∧ width o' = Z.min (Z.max 50 (width o + (x_root ev1 - x_root ev0)))
                 (screen_width scr - x o)
  ∧ height o' = Z.min (Z.max 50 (height o + (y_root ev1 - y_root ev0)))
                  (screen_height scr - y o)
  ∧ calls o' = calls o ++ [get_position o']
  ∧ in_progress o' = false
  ∧ resize_handle o'
    = Some (width o' - resize_handle_size o, height o' - resize_handle_size o,
            width o', height o').
Proof.
  fix_widgets o; unfold consistent; settle.
  - intros (-> & -> & -> & ->) _ -> [cb ->].
    destruct (truthy ol) eqn:Hl, dg;
      unfold run, deliver, _on_resize_press, _on_mouse_press, _is_in_resize_handle;
      settle; destruct (_ && _); settle;
      unfold _on_resize_drag, _on_mouse_drag_global, _on_resize_drag, _update_geometry,
        _create_label; settle;
      unfold _on_resize_release, _on_mouse_release_global, _notify_callback,
        _create_resize_handle, in_progress; settle; finish.
  - by intros (-> & _).
Qed.


Lemma deliver_fixed_attributes scr p o :
  draggable (deliver scr p o) = draggable o
  ∧ resizable (deliver scr p o) = resizable o
  ∧ (draggable o = false → x (deliver scr p o) = x o ∧ y (deliver scr p o) = y o)
  ∧ (resizable o = false →
     width (deliver scr p o) = width o ∧ height (deliver scr p o) = height o).
Proof.
  fix_widgets o; destruct p as [[] ev|[] ev|[] ev], dg, rz, d, r, ocb, lw, rh;
    handler_cases; finish.
Qed.

(** X7.  Pointer events never move a marker that is not draggable and never
    resize one that is not resizable, whatever the sequence of events. *)
Theorem fixed_marker_ignores_pointer scr ps o :
  (draggable o = false → x (run scr ps o) = x o ∧ y (run scr ps o) = y o)
  ∧ (resizable o = false →
     width (run scr ps o) = width o ∧ height (run scr ps o) = height o).
Proof.
  revert o. induction ps as [|p ps IH]; intros o; [done|].
  change (run scr (p :: ps) o) with (run scr ps (deliver scr p o)).
  destruct (deliver_fixed_attributes scr p o) as (Hdg & Hrz & Hpos & Hsize).
  destruct (IH (deliver scr p o)) as [IHpos IHsize]. split.
  - intros Hd. destruct (IHpos ltac:(by rewrite Hdg)) as [-> ->]. by apply Hpos.
  - intros Hr. destruct (IHsize ltac:(by rewrite Hrz)) as [-> ->]. by apply Hsize.
Qed.

Lemma drag_gesture_witness :
  let o' := run Examples.screen_hd
              [Press OnCanvas (Event 5 5 15 25); Motion OnCanvas (Event 5 5 55 65);
               Release OnCanvas (Event 5 5 55 65)] Examples.price_box in
  get_position o' = (50, 60, 200, 100) ∧ calls o' = [(50, 60, 200, 100)].
Proof.
  intros o'.
  destruct (drag_gesture Examples.screen_hd (Event 5 5 15 25) (Event 5 5 55 65)
              (Event 5 5 55 65) Examples.price_box)
    as (Hx & Hy & Hw & Hh & Hcalls & _).
  - apply OverlayInvariants.price_box_consistent.
  - reflexivity.
  - reflexivity.
  - reflexivity.
  - vm_compute; reflexivity.
  - vm_compute; eauto.
  - fold o' in Hx, Hy, Hw, Hh, Hcalls. rewrite Hcalls. unfold get_position.
    rewrite Hx, Hy, Hw, Hh. vm_compute. split; reflexivity.
Defined.

Lemma resize_gesture_witness :
  let o' := run Examples.screen_hd Examples.resize_release Examples.price_box in
  get_position o' = (10, 20, 230, 50) ∧ calls o' = [(10, 20, 230, 50)].
Proof.
  intros o'.
  destruct (resize_gesture Examples.screen_hd (Event 195 95 205 115)
              (Event 225 15 235 35) (Event 225 15 235 35) Examples.price_box)
    as (Hx & Hy & Hw & Hh & Hcalls & _).
  - apply OverlayInvariants.price_box_consistent.
  - reflexivity.
  - reflexivity.
  - vm_compute; eauto.
  - change (run Examples.screen_hd _ Examples.price_box) with o' in Hx, Hy, Hw, Hh, Hcalls.
    rewrite Hcalls. unfold get_position.
    rewrite Hx, Hy, Hw, Hh. vm_compute. split; reflexivity.
Defined.

Lemma fixed_marker_ignores_pointer_witness :
  let o' := run Examples.screen_hd (Examples.drag_release ++ Examples.resize_release)
              Examples.pinned_box in
  get_position o' = (10, 20, 200, 100).
Proof.
  intros o'.
  destruct (fixed_marker_ignores_pointer Examples.screen_hd
              (Examples.drag_release ++ Examples.resize_release) Examples.pinned_box)
    as [Hpos Hsize].
  destruct (Hpos eq_refl) as [Hx Hy]. destruct (Hsize eq_refl) as [Hw Hh].
  unfold get_position. fold o' in Hx, Hy, Hw, Hh. rewrite Hx, Hy, Hw, Hh. reflexivity.
Defined.

End OverlayBehaviour.

(** ** The point marker between calls *)

Module PointBehaviour.

Import Point.
Import Overlay(screen, screen_width, screen_height, event, x_root, y_root, Toplevel, truthy,
               clamp).

Ltac fix_widgets p :=
  destruct p as [px py pl dg pcb pps plx ply d psx psy pox poy pws [pt|] lw pv pc].

Ltac settle :=
  cbn -[Z.add Z.sub Z.max Z.min Z.leb Z.ltb Z.div Z.mul truthy] in *.

Ltac finish := repeat split; first [reflexivity | done].

Ltac methods :=
  unfold call, deliver, show, hide, update_position, update_label, _on_mouse_press,
    _on_mouse_drag, _on_mouse_release, _notify_callback, _update_geometry,
    _create_label, place_window in *.

(** The window only grows: no method and no event makes it smaller, and the
    point size never changes. *)
Lemma window_size_call scr m p :
  window_size p ≤ window_size (call scr m p)
  ∧ point_size (call scr m p) = point_size p.
Proof.
  fix_widgets p; destruct m as [req| |req nx ny notify|req l|req [ev|ev|ev]];
    methods; settle; repeat (case_match; settle); split; first [reflexivity | lia].
Qed.

Ltac use_truthy :=
  repeat match goal with
         | H : truthy ?l = _ |- context [truthy ?l] => rewrite H
         end.

Lemma point_consistent_init x y l cb st : consistent (__init__ x y l cb st).
Proof. done. Qed.

Lemma point_consistent_call scr m p : consistent p → consistent (call scr m p).
Proof.
  fix_widgets p; unfold consistent; settle.
  - intros (-> & -> & ->).
    destruct m as [req| |req nx ny notify|req l|req [ev|ev|ev]];
      methods; settle; repeat (case_match; settle); simplify_eq; use_truthy; finish.
  - intros (-> & ->).
    destruct m as [req| |req nx ny notify|req l|req [ev|ev|ev]];
      methods; settle; repeat (case_match; settle); simplify_eq; use_truthy; finish.
Qed.

Lemma point_consistent_calls_in_order scr ms p :
  consistent p → consistent (calls_in_order scr ms p).
Proof.
  revert p. induction ms as [|m ms IH]; intros p Hp; [done|].
  apply IH. by apply point_consistent_call.
Qed.

Lemma window_size_calls_in_order scr ms p :
  window_size p ≤ window_size (calls_in_order scr ms p)
  ∧ point_size (calls_in_order scr ms p) = point_size p.
Proof.
  revert p. induction ms as [|m ms IH]; intros p; [done|].
  destruct (window_size_call scr m p) as [Hws Hps].
  destruct (IH (call scr m p)) as [IHws IHps].
  change (calls_in_order scr (m :: ms) p) with (calls_in_order scr ms (call scr m p)).
  rewrite IHps, Hps. split; [lia|done].
Qed.

(** X8.  From its creation on, whatever is called on a point marker and
    whatever pointer events reach it, the window is the square of side
    [window_size] centred on the point, it exists exactly when the point is
    visible, the label frame exists exactly when the label is not empty, and
    the window is at least 100 wide and at least four point sizes wide. *)
Theorem point_window_stays_centred scr ms req x y l cb st :
  let p := calls_in_order scr ms (create_point req x y l cb st) in
  consistent p
  ∧ 100 ≤ window_size p
  ∧ 4 * point_size p ≤ window_size p.
Proof.
  simpl.
  change (create_point req x y l cb st)
    with (calls_in_order scr [Show req] (__init__ x y l cb st)).
  unfold calls_in_order. rewrite <- fold_left_app.
  fold (calls_in_order scr ([Show req] ++ ms) (__init__ x y l cb st)).
  split; [apply point_consistent_calls_in_order, point_consistent_init|].
  destruct (window_size_calls_in_order scr ([Show req] ++ ms) (__init__ x y l cb st))
    as [Hws ->].
  unfold __init__ in Hws |- *. settle. lia.
Qed.

(** X9.  Placing the label with [allow_resize] always enlarges the window:
    the size the handler computes is at least the current size plus the
    margin of 20, so the test [new_size > window_size] never fails.  Hence
    every [update_label] with a non-empty label on a visible point, and
    every [show] of a labelled point, makes the window at least 20 wider;
    the point itself does not move. *)
Theorem label_placement_grows_window req l p :
  consistent p →
  let placed := _create_label req true p in
  let relabelled := update_label req l p in
  (is_Some (overlay p) → window_size p + 20 ≤ window_size placed)
  ∧ (visible p = true → truthy l = true →
     window_size p + 20 ≤ window_size relabelled)
  ∧ get_position placed = get_position p
  ∧ get_position relabelled = get_position p.
Proof.
  fix_widgets p; unfold consistent; settle.
  - intros (-> & -> & ->). methods. settle.
    repeat (case_match; settle); simplify_eq; split_and!; try done; intros; try lia.
  - intros (-> & ->). methods. settle. split_and!; try done; by intros [? ?].
Qed.

Lemma point_deliver_callback scr req e p : callback (deliver scr req e p) = callback p.
Proof.
  fix_widgets p; destruct e as [ev|ev|ev], dg, d, pcb, lw; methods; settle;
    repeat (case_match; settle); done.
Qed.

Lemma point_deliver_calls scr req e p :
  is_Some (callback p) →
  calls (deliver scr req e p)
  = calls p ++ (if is_release e && dragging p then [get_position p] else []).
Proof.
  intros [cb Hcb].
  fix_widgets p; destruct e as [ev|ev|ev], dg, d, lw; settle; subst; methods; settle;
    repeat (case_match; settle); by rewrite ?app_nil_r.
Qed.

(** X10.  For every sequence of pointer events on a point marker with a
    callback, the callback is called exactly once for each release that
    ends a drag, with the point's coordinates at that release, and never for
    a press or a move. *)
Theorem point_callback_only_on_release scr req es p :
  is_Some (callback p) →
  calls (run scr req es p) = calls p ++ expected_calls scr req es p.
Proof.
  revert p. induction es as [|e es IH]; intros p Hcb.
  - by rewrite app_nil_r.
  - change (run scr req (e :: es) p) with (run scr req es (deliver scr req e p)).
    rewrite IH by (by rewrite point_deliver_callback).
    rewrite point_deliver_calls by done. simpl. by rewrite app_assoc.
Qed.


Lemma price_point_consistent : consistent Examples.price_point.
Proof.
  apply (point_consistent_call Examples.screen_hd (Show Examples.label_size)), point_consistent_init.
Qed.

Lemma label_placement_grows_window_witness :
  window_size Examples.price_point + 20
  ≤ window_size (update_label Examples.label_size "new" Examples.price_point)
  ∧ get_position (update_label Examples.label_size "new" Examples.price_point)
    = (300, 250).
Proof.
  destruct (label_placement_grows_window Examples.label_size "new" Examples.price_point
              price_point_consistent) as (_ & Hgrow & _ & Hpos).
  split; [apply Hgrow; reflexivity|]. rewrite Hpos. reflexivity.
Defined.

Lemma point_callback_only_on_release_witness :
  calls (run Examples.screen_hd Examples.label_size
           [Press Examples.point_press; Motion (Overlay.Event 50 50 340 290);
            Motion (Overlay.Event 50 50 350 300); Release (Overlay.Event 50 50 350 300)]
           Examples.price_point)
  = [(350, 300)].
Proof.
  rewrite (point_callback_only_on_release Examples.screen_hd Examples.label_size _
             Examples.price_point ltac:(vm_compute; eauto)).
  vm_compute. reflexivity.
Defined.


End PointBehaviour.

(** ** Registration, visibility and the getters together *)

Module ManagerBehaviour.

Import Manager.

Ltac step := cbn -[Z.max Z.sub Z.add Overlay.truthy] in *.





(** The updates of the live path never call the callback and leave the
    marker visible. *)
Lemma reregistered_marker rx ry rw rh l o :
  let o' := Overlay.show
              (Overlay.update_label l
                 (Overlay.update_size rw rh false (Overlay.update_position rx ry false o))) in
  Overlay.get_position o' = (rx, ry, Z.max 50 rw, Z.max 50 rh)
  ∧ Overlay.calls o' = Overlay.calls o
  ∧ Overlay.visible o' = true
  ∧ Overlay.label o' = l.
Proof.
  destruct o as [ox oy ow oh ol ocb dg [] ohs d r osx osy oox ooy osw osh
                 [ot|] [olw|] orh [] oc];
    unfold Overlay.update_position, Overlay.update_size; step;
    unfold Overlay.update_label; step;
    destruct (Overlay.truthy l) eqn:Hl; step;
    unfold Overlay.show; step; rewrite ?Hl; done.
Qed.

(** X13.  What registration leaves alone.  Whenever [registerRect] returns,
    the persisted records of both kinds, the points and every other
    rectangle are as before; the marker of the id is visible afterwards; and
    the call has not called the marker's callback: a marker that was live
    has the calls it had, a new one has none. *)
Theorem registration_frame rect_id label x y w h st m m' :
  registerRect rect_id label x y w h st m = Returns m' →
  _rect_configs m' = _rect_configs m
  ∧ _point_configs m' = _point_configs m
  ∧ _points m' = _points m
  ∧ (∀ other, other ≠ rect_id → _rects m' !! other = _rects m !! other)
  ∧ ∃ o, _rects m' !! rect_id = Some o
         ∧ Overlay.visible o = true
         ∧ Overlay.calls o = default [] (Overlay.calls <$> _rects m !! rect_id).
Proof.
  unfold registerRect.
  destruct (merged x _ _ _) as [rx|]; [|done]. simpl.
  destruct (merged y _ _ _) as [ry|]; [|done]. simpl.
  destruct (merged w _ _ _) as [rw|]; [|done]. simpl.
  destruct (merged h _ _ _) as [rh|]; [|done]. simpl.
  destruct (merged_label _ _ _) as [l|]; [|done]. simpl.
  destruct (_rects m !! rect_id) as [o|] eqn:Hlive; intros [= <-]; simpl.
  - split_and!; try done.
    + intros other Hne. by rewrite lookup_insert_ne.
    + eexists. rewrite lookup_insert_eq. split; [done|].
      destruct (reregistered_marker rx ry rw rh l o) as (_ & Hcalls & Hvis & _). done.
  - split_and!; try done.
    + intros other Hne. by rewrite lookup_insert_ne.
    + eexists. rewrite lookup_insert_eq. split; [done|].
      pose proof (ManagerFacts.create_overlay_attributes rx ry rw rh l
                    (Some (Overlay.RectCallback rect_id l)) st) as (_ & _ & ? & _ & ?).
      done.
Qed.

(** The updates of the live path on a point. *)
Lemma reregistered_point req px py l p :
  let p' := Point.show req (Point.update_label req l
                              (Point.update_position req px py false p)) in
  Point.get_position p' = (px, py)
  ∧ Point.calls p' = Point.calls p
  ∧ Point.visible p' = true.
Proof.
  destruct p as [x0 y0 pl dg pcb pps plx ply d psx psy pox poy pws [pt|] [plw|] [] pc];
    unfold Point.update_position, Point._update_geometry, Point.place_window,
      Point._create_label;
    cbn -[Z.add Z.sub Z.max Z.min Z.ltb Z.div Overlay.truthy];
    repeat (case_match; cbn -[Z.add Z.sub Z.max Z.min Z.ltb Z.div Overlay.truthy]);
    unfold Point.update_label, Point._create_label, Point.place_window;
    cbn -[Z.add Z.sub Z.max Z.min Z.ltb Z.div Overlay.truthy];
    repeat (case_match; cbn -[Z.add Z.sub Z.max Z.min Z.ltb Z.div Overlay.truthy]);
    unfold Point.show, Point._create_label, Point.place_window;
    cbn -[Z.add Z.sub Z.max Z.min Z.ltb Z.div Overlay.truthy];
    repeat (case_match; cbn -[Z.add Z.sub Z.max Z.min Z.ltb Z.div Overlay.truthy]);
    done.
Qed.

Lemma created_point req px py l cb st :
  let p := Point.create_point req px py l cb st in
  Point.get_position p = (px, py) ∧ Point.calls p = [] ∧ Point.visible p = true.
Proof.
  unfold Point.create_point, Point.show, Point._create_label, Point.place_window.
  cbn -[Z.add Z.sub Z.max Z.min Z.ltb Z.div Z.mul Z.abs Overlay.truthy].
  repeat (case_match; cbn -[Z.add Z.sub Z.max Z.min Z.ltb Z.div Z.mul Z.abs Overlay.truthy]);
    done.
Qed.

(** X17.  Registering a point is idempotent for what the callers can see:
    a second [registerPosition] with the same arguments leaves the point
    where the first one put it, makes no call to the callback, leaves the
    point visible and the persisted records untouched.  (The point has no
    size floor, so no condition on the arguments is needed.) *)
Theorem registerPosition_twice measure point_id label x y st m m1 m2 :
  registerPosition measure point_id label x y st m = Returns m1 →
  registerPosition measure point_id label x y st m1 = Returns m2 →
  ∃ p1 p2,
    _points m1 !! point_id = Some p1 ∧ _points m2 !! point_id = Some p2
    ∧ Point.get_position p2 = Point.get_position p1
    ∧ Point.calls p2 = Point.calls p1
    ∧ Point.visible p2 = true
    ∧ _point_configs m2 = _point_configs m
    ∧ _rect_configs m2 = _rect_configs m.
Proof.
  unfold registerPosition.
  destruct (merged x _ _ _) as [px|] eqn:Hx; [|done]. simpl.
  destruct (merged y _ _ _) as [py|] eqn:Hy; [|done]. simpl.
  destruct (merged_label _ _ _) as [l|] eqn:Hl; [|done]. simpl.
  assert (Hfirst : ∃ p1, (match _points m !! point_id with
                          | None => Point.create_point (measure l) px py l
                                      (Some (Point.PointCallback point_id l)) st
                          | Some p =>
                              Point.show (measure l)
                                (Point.update_label (measure l) l
                                   (Point.update_position (measure l) px py false p))
                          end) = p1 ∧ Point.get_position p1 = (px, py)).
  { destruct (_points m !! point_id) as [p|]; eexists; (split; [done|]).
    - by destruct (reregistered_point (measure l) px py l p) as (? & _).
    - by destruct (created_point (measure l) px py l
                     (Some (Point.PointCallback point_id l)) st) as (? & _). }
  destruct Hfirst as (p1 & Hp1 & Hpos1).
  intros Hm1.
  assert (Hm1' : m1 = set_points (<[point_id := p1]> (_points m)) m).
  { destruct (_points m !! point_id); injection Hm1 as <-; by rewrite <- Hp1. }
  subst m1. simpl. rewrite Hx, Hy. simpl. rewrite Hl. simpl.
  rewrite lookup_insert_eq. intros [= <-]. simpl.
  destruct (reregistered_point (measure l) px py l p1) as (Hpos2 & Hcalls2 & Hvis2).
  eexists _, _. rewrite !lookup_insert_eq. split; [done|]. split; [done|].
  rewrite Hpos1. done.
Qed.

Section Getters.

Variable int_of_str : string → option Z.

(** X14.  A getter issued after a registration sees it.  After
    [registerRect] with all four geometry arguments, [getRect] for the id
    returns that position, and that size if the marker was created by the
    call; if the marker was already live the size is raised to at least 50.
    The persisted record, whatever it holds, is not consulted. *)
Theorem getRect_after_registerRect rect_id label x y w h st m m' :
  registerRect rect_id label (Some x) (Some y) (Some w) (Some h) st m = Returns m' →
  getRect int_of_str rect_id m'
  = Returns (Some (rect_dict
      (if bool_decide (is_Some (_rects m !! rect_id))
       then (x, y, Z.max 50 w, Z.max 50 h)
       else (x, y, w, h)))).
Proof.
  unfold registerRect. simpl.
  destruct (merged_label _ _ _) as [l|]; [|done]. simpl.
  destruct (_rects m !! rect_id) as [o|] eqn:Hlive; intros [= <-];
    unfold getRect, set_rects; cbn [_rects]; rewrite lookup_insert_eq.
  - destruct (reregistered_marker x y w h l o) as (Hgeom & _).
    cbn zeta in Hgeom. rewrite Hgeom. done.
  - pose proof (ManagerFacts.create_overlay_attributes x y w h l
                  (Some (Overlay.RectCallback rect_id l)) st) as (Hgeom & _).
    cbn zeta in Hgeom. rewrite Hgeom. done.
Qed.




(** X16.  Hiding and showing change no answer.  [hideAll] and [showAll]
    leave the persisted records alone and every answer of [getRect] as it
    was; [hideAll] twice is [hideAll] once. *)
Theorem visibility_keeps_answers measure rect_id m :
  getRect int_of_str rect_id (hideAll m) = getRect int_of_str rect_id m
  ∧ getRect int_of_str rect_id (showAll measure m) = getRect int_of_str rect_id m
  ∧ _rect_configs (hideAll m) = _rect_configs m
  ∧ _point_configs (hideAll m) = _point_configs m
  ∧ _rect_configs (showAll measure m) = _rect_configs m
  ∧ _point_configs (showAll measure m) = _point_configs m
  ∧ _rects (hideAll (hideAll m)) = _rects (hideAll m).
Proof.
  assert (Hhide : ∀ o, Overlay.x (Overlay.hide o) = Overlay.x o
                       ∧ Overlay.y (Overlay.hide o) = Overlay.y o
                       ∧ Overlay.width (Overlay.hide o) = Overlay.width o
                       ∧ Overlay.height (Overlay.hide o) = Overlay.height o).
  { intros [ox oy ow oh ol ocb dg rz ohs d r osx osy oox ooy osw osh [ot|] lw rh [] oc];
      done. }
  assert (Hshow : ∀ o, Overlay.x (Overlay.show o) = Overlay.x o
                       ∧ Overlay.y (Overlay.show o) = Overlay.y o
                       ∧ Overlay.width (Overlay.show o) = Overlay.width o
                       ∧ Overlay.height (Overlay.show o) = Overlay.height o).
  { intros [ox oy ow oh ol ocb dg [] ohs d r osx osy oox ooy osw osh [ot|] lw rh [] oc];
      unfold Overlay.show; step; destruct (Overlay.truthy ol); done. }
  assert (Hidem : ∀ o, Overlay.hide (Overlay.hide o) = Overlay.hide o).
  { intros [ox oy ow oh ol ocb dg rz ohs d r osx osy oox ooy osw osh [ot|] lw rh [] oc];
      done. }
  split_and!; try done.
  - unfold getRect, hideAll. simpl. rewrite lookup_fmap.
    destruct (_rects m !! rect_id) as [o|]; simpl; [|done].
    by destruct (Hhide o) as (-> & -> & -> & ->).
  - unfold getRect, showAll. simpl. rewrite lookup_fmap.
    destruct (_rects m !! rect_id) as [o|]; simpl; [|done].
    by destruct (Hshow o) as (-> & -> & -> & ->).
  - unfold hideAll. simpl. rewrite <- map_fmap_compose. apply map_fmap_ext.
    intros k o _. apply Hidem.
Qed.

End Getters.


Lemma registration_frame_witness :
  ∃ m',
    registerRect "existing" "" None None None None Overlay.default_style
      Examples.persisted_small = Returns m'
    ∧ _rect_configs m' = _rect_configs Examples.persisted_small
    ∧ ∃ o, _rects m' !! "existing" = Some o ∧ Overlay.calls o = [].
Proof.
  destruct (registerRect "existing" "" None None None None Overlay.default_style
              Examples.persisted_small) as [m'|e] eqn:Hreg; [|by vm_compute in Hreg].
  destruct (registration_frame _ _ _ _ _ _ _ _ _ Hreg)
    as (Hcfg & _ & _ & _ & o & Ho & _ & Hcalls).
  exists m'. split; [reflexivity|]. split; [exact Hcfg|].
  exists o. split; [exact Ho|]. rewrite Hcalls. vm_compute. reflexivity.
Defined.

Lemma registerPosition_twice_witness :
  ∃ m1 m2 p1 p2,
    registerPosition (λ _, Examples.label_size) "pt" "" (Some 70) None
      Point.default_style Examples.persisted_partial = Returns m1
    ∧ registerPosition (λ _, Examples.label_size) "pt" "" (Some 70) None
        Point.default_style m1 = Returns m2
    ∧ _points m1 !! "pt" = Some p1 ∧ _points m2 !! "pt" = Some p2
    ∧ Point.get_position p2 = Point.get_position p1
    ∧ Point.calls p2 = Point.calls p1.
Proof.
  destruct (registerPosition (λ _, Examples.label_size) "pt" "" (Some 70) None
              Point.default_style Examples.persisted_partial) as [m1|e] eqn:H1;
    [|by vm_compute in H1].
  destruct (registerPosition (λ _, Examples.label_size) "pt" "" (Some 70) None
              Point.default_style m1) as [m2|e] eqn:H2.
  - destruct (registerPosition_twice _ _ _ _ _ _ _ _ _ H1 H2)
      as (p1 & p2 & Hp1 & Hp2 & Hpos & Hcalls & _).
    exists m1, m2, p1, p2. split; [reflexivity|]. split; [exact H2|].
    split; [exact Hp1|]. split; [exact Hp2|]. split; [exact Hpos|exact Hcalls].
  - exfalso. vm_compute in H1. injection H1 as <-. vm_compute in H2. discriminate.
Defined.

Lemma getRect_after_registerRect_witness :
  (m' ← registerRect "r1" "" (Some 10) (Some 10) (Some 30) (Some 30)
          Overlay.default_style Examples.fresh_manager;
   getRect Examples.no_int_of_str "r1" m')
  = Returns (Some (rect_dict (10, 10, 30, 30))).
Proof.
  destruct (registerRect "r1" "" (Some 10) (Some 10) (Some 30) (Some 30)
              Overlay.default_style Examples.fresh_manager) as [m'|e] eqn:Hreg;
    [|by vm_compute in Hreg].
  simpl.
  rewrite (getRect_after_registerRect Examples.no_int_of_str _ _ _ _ _ _ _ _ _ Hreg).
  reflexivity.
Defined.


End ManagerBehaviour.

(** ** The command queue under any schedule *)

Module DispatcherBehaviour.

Import Dispatcher.

Section Schedules.

Context {World Value : Type}.

Implicit Types (q : list (nat * closure World Value)) (fs : gmap nat (future Value)).
Implicit Types (w : World) (s : tk World Value).

(** The drain in general: whatever the functions do, it only completes
    futures of entries it has taken from the queue, which were pending; what
    it leaves in the queue is a tail of it, still pending; and it ends
    early only with an exception. *)
Lemma drain_general set_exc q fs w :
  NoDup q.*1 →
  (∀ fid, fid ∈ q.*1 → fs !! fid = Some Pending) →
  ∃ r q' fs' w',
    drain set_exc q fs w = (r, (q', fs', w'))
    ∧ q' `suffix_of` q
    ∧ (∀ fid, fid ∈ q'.*1 → fs' !! fid = Some Pending)
    ∧ (∀ fid, fid ∉ q.*1 → fs' !! fid = fs !! fid)
    ∧ (∀ fid, fs !! fid ≠ Some Pending → fs' !! fid = fs !! fid)
    ∧ dom fs' = dom fs
    ∧ (r = Returns () → q' = []).
Proof.
  revert fs w. induction q as [|[fid func] q IH]; intros fs w Hnd Hpend.
  - exists (Returns ()), [], fs, w. split_and!; try done;
      intros fid Hin; by apply elem_of_nil in Hin.
  - simpl in Hnd. apply NoDup_cons in Hnd as [Hfid Hnd].
    assert (Hhead : fs !! fid = Some Pending) by (apply Hpend; by left).
    assert (Htail : ∀ f', ∀ g, g ∈ q.*1 → <[fid := f']> fs !! g = Some Pending).
    { intros f' g Hg. rewrite lookup_insert_ne by (intros ->; done). apply Hpend. by right. }
    assert (Hstep : ∀ f' w1,
              ∃ r q' fs' w',
                drain set_exc q (<[fid := f']> fs) w1 = (r, (q', fs', w'))
                ∧ q' `suffix_of` (fid, func) :: q
                ∧ (∀ g, g ∈ q'.*1 → fs' !! g = Some Pending)
                ∧ (∀ g, g ∉ ((fid, func) :: q).*1 → fs' !! g = fs !! g)
                ∧ (∀ g, fs !! g ≠ Some Pending → fs' !! g = fs !! g)
                ∧ dom fs' = dom fs
                ∧ (r = Returns () → q' = [])).
    { intros f' w1.
      destruct (IH (<[fid := f']> fs) w1 Hnd (Htail f'))
        as (r & q' & fs' & w' & Hd & Hsuf & Hp & Hout & Hdone & Hdom & Hret).
      exists r, q', fs', w'. split_and!; try done.
      - by apply suffix_cons_r.
      - intros g Hg. apply not_elem_of_cons in Hg as [Hne Hg].
        rewrite Hout by done. by rewrite lookup_insert_ne.
      - intros g Hg. rewrite Hdone.
        + rewrite lookup_insert_ne; [done|]. intros <-. by rewrite Hhead in Hg.
        + rewrite lookup_insert_ne; [done|]. intros <-. by rewrite Hhead in Hg.
      - rewrite Hdom. apply dom_insert_lookup_L. by rewrite Hhead. }
    assert (Hstop : ∀ e w1,
              ∃ r q' fs' w',
                (Raises e, (q, fs, w1)) = (r, (q', fs', w'))
                ∧ q' `suffix_of` (fid, func) :: q
                ∧ (∀ g, g ∈ q'.*1 → fs' !! g = Some Pending)
                ∧ (∀ g, g ∉ ((fid, func) :: q).*1 → fs' !! g = fs !! g)
                ∧ (∀ g, fs !! g ≠ Some Pending → fs' !! g = fs !! g)
                ∧ dom fs' = dom fs
                ∧ (r = Returns () → q' = [])).
    { intros e w1. exists (Raises e), q, fs, w1. split_and!; try done.
      - by apply suffix_cons_r.
      - intros g Hg. apply Hpend. by right. }
    simpl. destruct set_exc.
    + rewrite (DispatcherFacts.on_future_pending _ fid fs (Exception stopped)) by done.
      apply Hstep.
    + destruct (func w) as [[v|e] w1].
      * rewrite (DispatcherFacts.on_future_pending _ fid fs (Result v)) by done.
        apply Hstep.
      * destruct (exn_is_Exception e); [|apply Hstop].
        rewrite (DispatcherFacts.on_future_pending _ fid fs (Exception e)) by done.
        apply Hstep.
Qed.

Lemma ensure_thread_fields s :
  _tk_queue (_ensure_tk_thread s) = _tk_queue s
  ∧ futures (_ensure_tk_thread s) = futures s
  ∧ _stop_event (_ensure_tk_thread s) = _stop_event s
  ∧ world (_ensure_tk_thread s) = world s.
Proof. unfold _ensure_tk_thread. by destruct (_tk_thread s). Qed.

(** One step of any thread keeps the queue well formed and never touches a
    future that is done. *)
Lemma perform_invariant a s :
  queue_ok s →
  queue_ok (perform a s)
  ∧ dom (futures s) ⊆ dom (futures (perform a s))
  ∧ ∀ fid, fid ∈ dom (futures s) → fid ∉ (_tk_queue s).*1 →
      futures (perform a s) !! fid = futures s !! fid
      ∧ fid ∉ (_tk_queue (perform a s)).*1.
Proof.
  intros Hok. destruct a as [func|update|]; simpl.
  - split; [apply DispatcherFacts.submit_queue_ok;
              [done|intros g; by apply DispatcherFacts.queue_ok_dom]|].
    unfold submit. destruct (ensure_thread_fields s) as (Hq & Hf & _ & _).
    simpl. rewrite Hq, Hf. split.
    + rewrite dom_insert. apply union_subseteq_r.
    + intros fid Hdom Hnq. split.
      * rewrite lookup_insert_ne; [done|]. intros <-. by apply (is_fresh (dom (futures s))).
      * rewrite fmap_app. simpl. intros [Hin| ->%list_elem_of_singleton]%elem_of_app;
          [done|]. by apply (is_fresh (dom (futures s))).
  - destruct Hok as [Hnd Hpend].
    assert (Hdrain : ∀ set_exc t,
              let '(r, s1) := _drain_queue set_exc (set_thread t s) in
              queue_ok s1 ∧ dom (futures s1) = dom (futures s)
              ∧ (r = Returns () → _tk_queue s1 = [])
              ∧ ∀ fid, fid ∉ (_tk_queue s).*1 →
                  futures s1 !! fid = futures s !! fid ∧ fid ∉ (_tk_queue s1).*1).
    { intros set_exc t. unfold _drain_queue. simpl.
      destruct (drain_general set_exc (_tk_queue s) (futures s) (world s) Hnd Hpend)
        as (r & q' & fs' & w' & -> & Hsuf & Hp & Hout & _ & Hdom & Hret).
      simpl. split_and!; try done.
      - split; simpl; [|done]. destruct Hsuf as [pre Hpre].
        rewrite Hpre, fmap_app in Hnd. by apply NoDup_app in Hnd as (_ & _ & ?).
      - intros fid Hfid. split; [by apply Hout|]. intros Hin. apply Hfid.
        destruct Hsuf as [pre Hpre]. rewrite Hpre, fmap_app. apply elem_of_app. by right. }
    unfold worker_turn, leave_loop.
    destruct (_tk_thread s) eqn:Hth;
      try (split; [by split|]; split; [done|]; by intros fid _ Hnq).
    destruct (_stop_event s) eqn:Hstop.
    + specialize (Hdrain true Alive).
      replace (set_thread Alive s) with s in Hdrain by (destruct s; simpl in *; by subst).
      destruct (_drain_queue true s) as [r s1].
      destruct Hdrain as ([Hnd1 Hp1] & Hdom & _ & Hframe).
      destruct r; simpl; (split; [by split|]); (split; [by rewrite Hdom|]);
        intros fid _ Hnq; by apply Hframe.
    + specialize (Hdrain false Alive).
      replace (set_thread Alive s) with s in Hdrain by (destruct s; simpl in *; by subst).
      destruct (_drain_queue false s) as [r s1] eqn:Hrun.
      destruct Hdrain as ([Hnd1 Hp1] & Hdom & Hret & Hframe).
      destruct r as [[]|e]; simpl.
      * destruct (update (world s1)) as [w1|]; simpl.
        -- split; [by split|]. split; [by rewrite Hdom|].
           intros fid _ Hnq. by apply Hframe.
        -- unfold _drain_queue. rewrite (Hret eq_refl). simpl.
           split; [split; simpl; [apply NoDup_nil_2|]|].
           { intros fid Hin. by apply elem_of_nil in Hin. }
           split; [by rewrite Hdom|]. intros fid _ Hnq.
           split; [by apply Hframe|]. intros Hin. by apply elem_of_nil in Hin.
      * split; [by split|]. split; [by rewrite Hdom|].
        intros fid _ Hnq. by apply Hframe.
  - split; [done|]. split; [done|]. by intros fid _ Hnq.
Qed.


Lemma outside_queue_stays acts s fid :
  queue_ok s → fid ∈ dom (futures s) → fid ∉ (_tk_queue s).*1 →
  wait fid (schedule acts s) = wait fid s.
Proof.
  revert s. induction acts as [|a acts IH]; intros s Hok Hdom Hnq; [done|].
  destruct (perform_invariant a s Hok) as (Hok1 & Hdom1 & Hframe1).
  destruct (Hframe1 fid Hdom Hnq) as [Heq Hnq1].
  change (schedule (a :: acts) s) with (schedule acts (perform a s)).
  rewrite IH; [|done|by apply Hdom1|done]. unfold wait. by rewrite Heq.
Qed.

(** X19.  An exception that is not an [Exception] ends the Tk thread.  If
    the function at the head of the queue raises such an exception, the pass
    ends the thread with it; the future of that function is left pending,
    and no later submission, pass or stop ever completes it, so its caller
    stays blocked; the entries behind it are left in the queue, neither run
    nor failed. *)
Theorem uncaught_exception_blocks_caller update fid func q2 e s :
  _tk_thread s = Alive → _stop_event s = false → queue_ok s →
  _tk_queue s = (fid, func) :: q2 →
  (func (world s)).1 = Raises e → exn_is_Exception e = false →
  let s' := worker_turn update s in
  _tk_thread s' = Crashed e
  ∧ _tk_queue s' = q2
  ∧ world s' = (func (world s)).2
  ∧ (∀ g, g ∈ q2.*1 → wait g s' = None)
  ∧ ∀ acts, wait fid (schedule acts s') = None.
Proof.
  destruct s as [q fs stop th w]. simpl. intros -> -> [Hnd Hpend] -> Hraise Hbase.
  simpl in *. apply NoDup_cons in Hnd as [Hfid Hnd].
  unfold worker_turn, _drain_queue. simpl.
  destruct (func w) as [r w1]. simpl in Hraise. subst r. rewrite Hbase. simpl.
  assert (Hq2 : ∀ g, g ∈ q2.*1 → fs !! g = Some Pending).
  { intros g Hg. apply Hpend. by right. }
  split_and!; try done.
  - intros g Hg. unfold wait. simpl. by rewrite (Hq2 g Hg).
  - intros acts. rewrite outside_queue_stays.
    + unfold wait. simpl. by rewrite (Hpend fid ltac:(by left)).
    + by split.
    + simpl. apply elem_of_dom. rewrite (Hpend fid ltac:(by left)). by eexists.
    + done.
Qed.

(** X20.  A [TclError] from the toolkit ends the loop after the drain of
    that pass: everything that was queued has been run, in order, and each
    caller gets its own outcome; nothing is failed with "stopped"; the
    thread has exited. *)
Theorem tcl_error_ends_loop s :
  _tk_thread s = Alive → _stop_event s = false → queue_ok s →
  Forall (λ c, raises_only_Exception c.2) (_tk_queue s) →
  let s' := worker_turn (λ _, None) s in
  _tk_thread s' = Exited
  ∧ _tk_queue s' = []
  ∧ world s' = (run_in_order (_tk_queue s) (world s)).2
  ∧ ∀ fid r, (fid, r) ∈ (run_in_order (_tk_queue s) (world s)).1 → wait fid s' = Some r.
Proof.
  destruct s as [q fs stop th w]. simpl. intros -> -> [Hnd Hpend] Hexc. simpl in *.
  destruct (DispatcherFacts.drain_runs q fs w Hnd Hpend Hexc) as (fs' & Hdrain & Hin & _).
  unfold worker_turn, leave_loop, _drain_queue. simpl. rewrite Hdrain. simpl.
  split_and!; try done.
  intros fid r Hr. unfold wait. simpl. rewrite (Hin fid r Hr). simpl.
  apply DispatcherFacts.result_completed.
Qed.

(** X21.  [destroy] from start to end, on a running dispatcher whose queued
    functions raise nothing but [Exception]s.  If [_destroy] returns, the
    stop event is set once the pass has served it and the next pass ends
    the thread with an empty queue.  If [_destroy] raises, [destroy] gets
    the exception from its blocking call, the stop event is not set, and
    the thread goes on running. *)
Theorem destroy_stops_unless_teardown_raises upd update _destroy s :
  _tk_thread s = Alive → _stop_event s = false → queue_ok s →
  Forall (λ c, raises_only_Exception c.2) (_tk_queue s) →
  raises_only_Exception _destroy →
  let fid := (destroy_submit _destroy s).1 in
  let served := worker_turn (λ w, Some (upd w)) (destroy_submit _destroy s).2 in
  let resumed := destroy_resume fid served in
  let outcome := (_destroy (run_in_order (_tk_queue s) (world s)).2).1 in
  wait fid served = Some outcome
  ∧ match outcome with
    | Returns _ =>
        _stop_event resumed = true
        ∧ _tk_thread (worker_turn update resumed) = Exited
        ∧ _tk_queue (worker_turn update resumed) = []
    | Raises e =>
        resumed = served ∧ _stop_event resumed = false ∧ _tk_thread resumed = Alive
    end.
Proof.
  intros Halive Hstop Hok Hexc Hdestroy. unfold destroy_submit.
  destruct (DispatcherFacts.submit_state _destroy s Halive)
    as (Hfid & Hsq & Hsalive & Hsstop & Hsw).
  destruct (DispatcherFacts.worker_turn_runs upd (submit _destroy s).2)
    as (Ha & Hq' & Hs' & _ & Hres & _).
  - done.
  - by rewrite Hsstop.
  - apply DispatcherFacts.submit_queue_ok; [done|].
    intros g. by apply DispatcherFacts.queue_ok_dom.
  - rewrite Hsq. apply Forall_app. split; [done|]. by apply Forall_singleton.
  - cbv zeta. rewrite Hsq, Hsw, DispatcherFacts.run_in_order_app in Hres.
    set (served := worker_turn (λ w, Some (upd w)) (submit _destroy s).2) in *.
    set (fid := (submit _destroy s).1) in *.
    revert Hres.
    destruct (run_in_order (_tk_queue s) (world s)) as [rs w1]. cbn [fst snd run_in_order].
    destruct (_destroy w1) as [r w2]. cbn [fst snd]. intros Hres.
    assert (Hwait : wait fid served = Some r).
    { apply Hres, elem_of_app. right. by left. }
    split; [done|]. unfold destroy_resume. rewrite Hwait.
    destruct r as [v|e]; [|done].
    split; [done|].
    unfold worker_turn, leave_loop, _drain_queue.
    destruct served as [q1 fs1 stop1 th1 wd1]. simpl in *. subst. done.
Qed.

(** X22.  Submissions are served in the order in which they were made, each
    on the world the previous one left: when two functions are submitted to
    an empty queue, one pass runs the first on the current world and the
    second on the world the first one left, and gives each caller its own
    outcome through its own future. *)
Theorem submissions_served_in_order upd f g s :
  _tk_thread s = Alive → _stop_event s = false → _tk_queue s = [] →
  raises_only_Exception f → raises_only_Exception g →
  let first := submit f s in
  let second := submit g first.2 in
  let s' := worker_turn (λ w, Some (upd w)) second.2 in
  first.1 ≠ second.1
  ∧ wait first.1 s' = Some (f (world s)).1
  ∧ wait second.1 s' = Some (g (f (world s)).2).1
  ∧ world s' = upd (g (f (world s)).2).2.
Proof.
  intros Halive Hstop Hempty Hf Hg. cbv zeta.
  assert (Hok : queue_ok s).
  { split; rewrite Hempty; [apply NoDup_nil_2|]. intros fid Hin. by apply elem_of_nil in Hin. }
  destruct (DispatcherFacts.submit_state f s Halive) as (Hid1 & Hq1 & Ha1 & Hs1 & Hw1).
  assert (Hok1 : queue_ok (submit f s).2).
  { apply DispatcherFacts.submit_queue_ok; [done|].
    intros fid. by apply DispatcherFacts.queue_ok_dom. }
  destruct (DispatcherFacts.submit_state g (submit f s).2 Ha1)
    as (Hid2 & Hq2 & Ha2 & Hs2 & Hw2).
  assert (Hok2 : queue_ok (submit g (submit f s).2).2).
  { apply DispatcherFacts.submit_queue_ok; [done|].
    intros fid. by apply DispatcherFacts.queue_ok_dom. }
  rewrite Hempty, app_nil_l in Hq1. rewrite Hq1 in Hq2.
  change ([?a] ++ [?b]) with [a; b] in Hq2.
  destruct (DispatcherFacts.worker_turn_runs upd (submit g (submit f s).2).2)
    as (_ & _ & _ & Hworld & Hres & _).
  - done.
  - by rewrite Hs2, Hs1.
  - done.
  - rewrite Hq2. by repeat constructor.
  - rewrite Hq2, Hw2, Hw1 in Hres, Hworld. cbn [run_in_order] in Hres, Hworld.
    revert Hres Hworld.
    destruct (f (world s)) as [r1 w1]. cbn [fst snd].
    destruct (g w1) as [r2 w2]. cbn [fst snd].
    intros Hres Hworld. split_and!.
    + destruct Hok2 as [Hnd _]. rewrite Hq2 in Hnd. cbn [fmap list_fmap fst] in Hnd.
      apply NoDup_cons in Hnd as [Hne _]. intros Heq. apply Hne. rewrite Heq. by left.
    + apply Hres. by left.
    + apply Hres. right. by left.
    + done.
Qed.

End Schedules.


Lemma exiting_then_good_queue :
  _tk_queue Examples.exiting_then_good
  = [(0%nat, Examples.raises_SystemExit); (1%nat, Examples.returns_seven)].
Proof. by vm_compute. Qed.

Lemma exiting_then_good_ok : queue_ok Examples.exiting_then_good.
Proof.
  split; rewrite exiting_then_good_queue; simpl.
  - apply NoDup_cons. split; [|apply NoDup_singleton].
    by intros [=]%list_elem_of_singleton.
  - intros fid [->|[->|[]%elem_of_nil]%elem_of_cons]%elem_of_cons; by vm_compute.
Qed.

Lemma uncaught_exception_blocks_caller_witness :
  let s' := worker_turn Examples.no_events Examples.exiting_then_good in
  _tk_thread s' = Crashed (PyExn "SystemExit" "1" false)
  ∧ wait 1%nat s' = None
  ∧ wait 0%nat (schedule [Turn Examples.no_events; Submit Examples.returns_zero;
                          SetStop; Turn Examples.no_events] s') = None.
Proof.
  destruct (uncaught_exception_blocks_caller Examples.no_events 0%nat
              Examples.raises_SystemExit [(1%nat, Examples.returns_seven)]
              (PyExn "SystemExit" "1" false) Examples.exiting_then_good
              eq_refl eq_refl exiting_then_good_ok exiting_then_good_queue eq_refl eq_refl)
    as (Hcrash & _ & _ & Hbehind & Hblocked).
  split; [exact Hcrash|]. split; [|apply Hblocked].
  apply Hbehind. simpl. by left.
Defined.

Lemma tcl_error_ends_loop_witness :
  let s' := worker_turn (λ _, None) Examples.failing_then_good in
  _tk_thread s' = Exited
  ∧ _tk_queue s' = []
  ∧ wait 0%nat s' = Some (Raises (PyExn "KeyError" "missing" true))
  ∧ wait 1%nat s' = Some (Returns 7).
Proof.
  destruct DispatcherFacts.failing_then_good_ok as [Hok Hexc].
  destruct (tcl_error_ends_loop Examples.failing_then_good eq_refl eq_refl Hok Hexc)
    as (Hexit & Hempty & _ & Hres).
  split; [exact Hexit|]. split; [exact Hempty|]. split; apply Hres.
  - rewrite DispatcherFacts.failing_then_good_queue. simpl. by left.
  - rewrite DispatcherFacts.failing_then_good_queue. simpl. right. by left.
Defined.

Lemma destroy_stops_unless_teardown_raises_witness :
  let fid := (destroy_submit Examples.returns_zero Examples.pending_submit.2).1 in
  let served :=
    worker_turn (λ w, Some w) (destroy_submit Examples.returns_zero Examples.pending_submit.2).2 in
  let resumed := destroy_resume fid served in
  wait fid served = Some (Returns 0)
  ∧ _stop_event resumed = true
  ∧ _tk_thread (worker_turn Examples.no_events resumed) = Exited.
Proof.
  destruct DispatcherFacts.pending_submit_ok as [Hok Hexc].
  destruct DispatcherFacts.example_closures_raise_only_Exception as (_ & H0 & _).
  destruct (destroy_stops_unless_teardown_raises (λ w, w) Examples.no_events
              Examples.returns_zero Examples.pending_submit.2 eq_refl eq_refl Hok Hexc H0)
    as (Hwait & Hstop & Hexit & _).
  split; [exact Hwait|]. split; [exact Hstop|exact Hexit].
Defined.

Lemma submissions_served_in_order_witness :
  let first := submit Examples.raises_KeyError Examples.idle_tk in
  let second := submit Examples.returns_seven first.2 in
  let s' := worker_turn (λ w, Some w) second.2 in
  first.1 ≠ second.1
  ∧ wait first.1 s' = Some (Raises (PyExn "KeyError" "missing" true))
  ∧ wait second.1 s' = Some (Returns 7).
Proof.
  destruct DispatcherFacts.example_closures_raise_only_Exception as (H7 & _ & HK).
  destruct (submissions_served_in_order (λ w, w) Examples.raises_KeyError
              Examples.returns_seven Examples.idle_tk eq_refl eq_refl eq_refl HK H7)
    as (Hne & Hfirst & Hsecond & _).
  split; [exact Hne|]. split; [exact Hfirst|exact Hsecond].
Defined.

End DispatcherBehaviour.

(** ** The persisted document: what a load and a save do to the directory *)

Module ConfigStoreBehaviour.

Import ConfigStore.

Section Codec.

Variable json_load : string → py_result json.
Variable json_dump : json → list string * option py_exn.

#[local] Abbreviation written := (written json_dump).
#[local] Abbreviation dumps := (dumps json_dump).
#[local] Abbreviation _write_config_file := (_write_config_file json_dump).
#[local] Abbreviation _save_all_configs := (_save_all_configs json_dump).
#[local] Abbreviation read_json := (read_json json_load).
#[local] Abbreviation _load_legacy_file := (_load_legacy_file json_load).
#[local] Abbreviation _migrate_legacy_configs := (_migrate_legacy_configs json_load json_dump).
#[local] Abbreviation _load_all_configs := (_load_all_configs json_load json_dump).

(** A write that cannot open the temporary file raises at once. *)
Lemma write_refused data (d : directory) :
  ¬ writable (d !! TMP_FILENAME) → _write_config_file data d = (Raises OSError, d).
Proof.
  intros Htmp. rewrite ConfigStoreFacts.write_config_file_cases.
  destruct (d !! TMP_FILENAME) as [[[] c0|]|]; try done; by destruct Htmp.
Qed.

(** [_load_legacy_file] swallows [JSONDecodeError] and [OSError]: it raises
    only what [json.load] raises, outside these classes, on a file that could
    be opened. *)
Lemma load_legacy_raises filename (d : directory) e :
  _load_legacy_file filename d = Raises e →
  caught e = false ∧ ∃ c, d !! filename = Some (File true c) ∧ json_load c = Raises e.
Proof.
  unfold ConfigStore._load_legacy_file, exists_, ConfigStore.read_json.
  destruct (bool_decide (is_Some (d !! filename))); simpl; [|done].
  destruct (d !! filename) as [[[] c|]|]; simpl; try done.
  destruct (json_load c) as [v|e'] eqn:Hload; [done|].
  destruct (caught e') eqn:Hcaught; [done|]. intros [= <-]. split; [done|]. by exists c.
Qed.

(** The codec reads back the text it wrote: the dump completes and the load
    of the text gives the document. *)
Lemma round_trip_completes data :
  dumps data ≫= json_load = Returns data →
  (json_dump data).2 = None ∧ json_load (written data) = Returns data.
Proof. unfold ConfigStore.dumps. by destruct (json_dump data).2. Qed.

(** X23.  A save followed by a load gives back the two namespaces that were
    saved, whatever else the in-memory document held: when the temporary
    path can be opened, the canonical path is not a directory and the codec
    reads back the text it wrote, [_save_all_configs] returns, leaves no
    temporary file, touches no other file of the directory, and
    [_load_all_configs] on the resulting directory returns exactly the saved
    rectangles and points without writing. *)
Theorem save_load_round_trip _config rects points (d : directory) :
  writable (d !! TMP_FILENAME) →
  d !! CONFIG_FILENAME ≠ Some Dir →
  let doc := <["points" := JObj points]> (<["rects" := JObj rects]> _config) in
  dumps (JObj doc) ≫= json_load = Returns (JObj doc) →
  ∃ d1, _save_all_configs _config rects points d = (Returns (), (doc, d1))
        ∧ d1 !! TMP_FILENAME = None
        ∧ (∀ name, name ≠ CONFIG_FILENAME → name ≠ TMP_FILENAME → d1 !! name = d !! name)
        ∧ _load_all_configs d1
          = (Returns {[ "rects" := JObj rects; "points" := JObj points ]}, d1).
Proof.
  intros Htmp Hcfg doc [Hdone Hround]%round_trip_completes.
  exists (<[CONFIG_FILENAME := File true (written (JObj doc))]> (delete TMP_FILENAME d)).
  split_and!.
  - unfold ConfigStore._save_all_configs. fold doc.
    by rewrite ConfigStoreFacts.write_succeeds.
  - rewrite lookup_insert_ne by done. apply lookup_delete_eq.
  - intros name Hn1 Hn2. rewrite lookup_insert_ne by done. by apply lookup_delete_ne.
  - unfold ConfigStore._load_all_configs, exists_, ConfigStore.read_json.
    rewrite lookup_insert_eq.
    rewrite bool_decide_eq_true_2 by (by eexists).
    rewrite Hround. simpl. unfold namespace, doc.
    by rewrite lookup_insert_eq, lookup_insert_ne, lookup_insert_eq.
Qed.

(** X24.  [_write_config_file] touches nothing but the temporary and the
    canonical path.  When it returns it leaves no temporary file.  When it
    raises, the canonical path holds what it held before; the exception is
    [OSError] (the temporary file could not be opened, or the rename was
    refused) or the exception that ended the dump; and if the temporary file
    could be opened it is left behind, holding what the dump wrote. *)
Theorem write_touches_two_paths data (d : directory) :
  let '(r, d1) := _write_config_file data d in
  (∀ name, name ≠ CONFIG_FILENAME → name ≠ TMP_FILENAME → d1 !! name = d !! name)
  ∧ match r with
    | Returns _ => d1 !! TMP_FILENAME = None
    | Raises e =>
        d1 !! CONFIG_FILENAME = d !! CONFIG_FILENAME
        ∧ (e = OSError ∨ (json_dump data).2 = Some e)
        ∧ (writable (d !! TMP_FILENAME) →
           d1 !! TMP_FILENAME = Some (File true (written data)))
    end.
Proof.
  rewrite ConfigStoreFacts.write_config_file_cases.
  destruct (d !! TMP_FILENAME) as [[[] c0|]|] eqn:Htmp;
    try (split; [done|]; split; [done|]; split; [by left|by intros []]).
  all: destruct (json_dump data).2 as [e|].
  all: try destruct (d !! CONFIG_FILENAME) as [[]|] eqn:Hcfg.
  all: (split; [intros name Hn1 Hn2|]).
  all: rewrite ?lookup_insert_ne by done; rewrite ?lookup_delete_ne by done; try done.
  all: try apply lookup_delete_eq.
  all: split; [by rewrite ?lookup_insert_ne|]; split; [by eauto|].
  all: intros _; apply lookup_insert_eq.
Qed.

(** X25.  Whatever a load finds in the directory, a document it returns has
    exactly the two namespaces, each a dictionary. *)
Theorem load_returns_two_namespaces (d : directory) doc d1 :
  _load_all_configs d = (Returns doc, d1) → two_namespaces doc.
Proof.
  unfold ConfigStore._load_all_configs.
  destruct (exists_ CONFIG_FILENAME d).
  - destruct (read_json CONFIG_FILENAME d) as [data|e].
    + destruct (ConfigStoreFacts.namespace_dict (default ∅ (as_dict data)) "rects") as [r Hr].
      destruct (ConfigStoreFacts.namespace_dict (default ∅ (as_dict data)) "points") as [p Hp].
      intros [= <- <-]. exists r, p. by rewrite Hr, Hp.
    + destruct (caught e); [|done]. intros [= <- <-]. by exists ∅, ∅.
  - unfold ConfigStore._migrate_legacy_configs.
    destruct (_load_legacy_file "rects.json" d) as [rects|e]; [|done].
    destruct (_load_legacy_file "points.json" d) as [points|e]; [|done].
    destruct (is_empty rects && is_empty points).
    + intros [= <- <-]. by exists ∅, ∅.
    + destruct (_write_config_file _ d) as [[[]|e] d2]; [|done].
      intros [= <- <-]. by exists rects, points.
Qed.

(** X26.  Once the unified file exists, a load reads nothing else and
    writes nothing: it leaves the directory as it is, and its outcome is the
    same in every directory that holds the same unified file, whatever the
    legacy files hold. *)
Theorem unified_file_shadows_legacy (d d' : directory) :
  is_Some (d !! CONFIG_FILENAME) →
  d' !! CONFIG_FILENAME = d !! CONFIG_FILENAME →
  (_load_all_configs d).2 = d
  ∧ (_load_all_configs d').2 = d'
  ∧ (_load_all_configs d').1 = (_load_all_configs d).1.
Proof.
  intros Hex Heq. unfold ConfigStore._load_all_configs, exists_, ConfigStore.read_json.
  rewrite Heq. rewrite bool_decide_eq_true_2 by done.
  destruct (d !! CONFIG_FILENAME) as [[[] c|]|]; simpl; try done.
  destruct (json_load c) as [v|e]; simpl; [done|]. by destruct (caught e).
Qed.

(** X27.  A migration that cannot open the temporary file fails the load:
    with the unified file absent and a legacy file that holds an entry,
    [_load_all_configs] raises [OSError] and leaves the directory as it
    was. *)
Theorem failed_migration_raises (d : directory) rects points :
  d !! CONFIG_FILENAME = None →
  _load_legacy_file "rects.json" d = Returns rects →
  _load_legacy_file "points.json" d = Returns points →
  is_empty rects && is_empty points = false →
  ¬ writable (d !! TMP_FILENAME) →
  _load_all_configs d = (Raises OSError, d).
Proof.
  intros Hcfg Hrects Hpoints Hne Htmp.
  unfold ConfigStore._load_all_configs, ConfigStore._migrate_legacy_configs, exists_.
  rewrite bool_decide_eq_false_2 by (rewrite Hcfg; by intros [? ?]).
  rewrite Hrects, Hpoints, Hne. by rewrite write_refused.
Qed.

(** X28.  The ways in which a load can fail.  When [_load_all_configs]
    raises, no path other than the temporary one has changed, and one of
    three things has happened.  One of the three files could be opened and
    [json.load] raised on its text an exception that is neither
    [JSONDecodeError] nor [OSError]; nothing has been written.  Or the
    unified file is absent and the migration could not open the temporary
    file, which gives [OSError]; nothing has been written.  Or the unified
    file is absent, the temporary file was opened and the dump of the
    migrated document raised; the load raises that exception and the
    temporary file is left with what the dump wrote before it. *)
Theorem load_failure_modes (d : directory) e d1 :
  _load_all_configs d = (Raises e, d1) →
  (∀ name, name ≠ TMP_FILENAME → d1 !! name = d !! name)
  ∧ ((d1 = d ∧ caught e = false
      ∧ ∃ filename c, filename ∈ [CONFIG_FILENAME; "rects.json"; "points.json"]
                      ∧ d !! filename = Some (File true c) ∧ json_load c = Raises e)
     ∨ (d1 = d ∧ e = OSError ∧ d !! CONFIG_FILENAME = None
        ∧ ¬ writable (d !! TMP_FILENAME))
     ∨ (d !! CONFIG_FILENAME = None ∧ writable (d !! TMP_FILENAME)
        ∧ ∃ rects points,
            _load_legacy_file "rects.json" d = Returns rects
            ∧ _load_legacy_file "points.json" d = Returns points
            ∧ let doc := JObj {[ "rects" := JObj rects; "points" := JObj points ]} in
              (json_dump doc).2 = Some e
              ∧ d1 = <[TMP_FILENAME := File true (written doc)]> d)).
Proof.
  unfold ConfigStore._load_all_configs, exists_.
  destruct (bool_decide (is_Some (d !! CONFIG_FILENAME))) eqn:Hex.
  - unfold ConfigStore.read_json.
    destruct (d !! CONFIG_FILENAME) as [[[] c|]|] eqn:Hcfg; simpl; try done.
    destruct (json_load c) as [v|e'] eqn:Hload; [done|].
    destruct (caught e') eqn:Hcaught; [done|]. intros [= <- <-].
    split; [done|]. left. split; [done|]. split; [done|]. exists CONFIG_FILENAME, c.
    split; [by left|done].
  - apply bool_decide_eq_false in Hex.
    assert (Hcfg : d !! CONFIG_FILENAME = None).
    { destruct (d !! CONFIG_FILENAME); [|done]. destruct Hex. by eexists. }
    unfold ConfigStore._migrate_legacy_configs.
    destruct (_load_legacy_file "rects.json" d) as [rects|e1] eqn:Hrects.
    2:{ intros [= <- <-]. destruct (load_legacy_raises _ _ _ Hrects) as (Hc & c & Hf & Hl).
        split; [done|]. left. split; [done|]. split; [done|]. exists "rects.json", c.
        split; [right; by left|done]. }
    destruct (_load_legacy_file "points.json" d) as [points|e2] eqn:Hpoints.
    2:{ intros [= <- <-]. destruct (load_legacy_raises _ _ _ Hpoints) as (Hc & c & Hf & Hl).
        split; [done|]. left. split; [done|]. split; [done|]. exists "points.json", c.
        split; [right; right; by left|done]. }
    destruct (is_empty rects && is_empty points); [done|].
    rewrite ConfigStoreFacts.write_config_file_cases, Hcfg.
    destruct (d !! TMP_FILENAME) as [[[] c0|]|] eqn:Htmp.
    2,3: intros [= <- <-]; split; [done|]; right; left;
         split; [done|]; split; [done|]; split; [done|]; by intros [].
    all: destruct (json_dump _).2 as [e'|] eqn:Hdump; [|done].
    all: intros [= <- <-]; split;
           [intros name Hn; by rewrite lookup_insert_ne|].
    all: right; right; split; [done|]; split; [done|].
    all: exists rects, points; by rewrite Hdump.
Qed.

End Codec.

Lemma save_load_round_trip_witness :
  ∃ d1, _save_all_configs Examples.sample_dump ∅ Examples.legacy_rects ∅ Examples.one_legacy
        = (Returns (), (Examples.migrated, d1))
        ∧ d1 !! "rects.json" = Some (File true Examples.legacy_text)
        ∧ _load_all_configs Examples.sample_load Examples.sample_dump d1
          = (Returns Examples.migrated, d1).
Proof.
  destruct (save_load_round_trip Examples.sample_load Examples.sample_dump
              ∅ Examples.legacy_rects ∅ Examples.one_legacy)
    as (d1 & Hsave & _ & Hframe & Hload).
  - vm_compute; exact I.
  - vm_compute; discriminate.
  - vm_compute; reflexivity.
  - exists d1. split; [exact Hsave|]. split; [|exact Hload].
    rewrite Hframe; [vm_compute; reflexivity|discriminate|discriminate].
Defined.

Lemma load_returns_two_namespaces_witness : two_namespaces Examples.migrated.
Proof.
  apply (load_returns_two_namespaces Examples.sample_load Examples.sample_dump
           Examples.one_legacy Examples.migrated
           (_load_all_configs Examples.sample_load Examples.sample_dump Examples.one_legacy).2).
  vm_compute; reflexivity.
Defined.

Lemma unified_file_shadows_legacy_witness :
  let unified : directory := {[ CONFIG_FILENAME := File true Examples.migrated_text ]} in
  let both : directory := <[ CONFIG_FILENAME := File true "{}" ]> Examples.one_legacy in
  (_load_all_configs Examples.sample_load Examples.sample_dump both).2 = both
  ∧ (_load_all_configs Examples.sample_load Examples.sample_dump
       (<[ "rects.json" := File true Examples.legacy_text ]> unified)).1
    = (_load_all_configs Examples.sample_load Examples.sample_dump unified).1.
Proof.
  split.
  - apply (unified_file_shadows_legacy Examples.sample_load Examples.sample_dump
             (<[ CONFIG_FILENAME := File true "{}" ]> Examples.one_legacy)
             (<[ CONFIG_FILENAME := File true "{}" ]> Examples.one_legacy));
      vm_compute; [by eexists|reflexivity].
  - apply (unified_file_shadows_legacy Examples.sample_load Examples.sample_dump
             {[ CONFIG_FILENAME := File true Examples.migrated_text ]}
             (<[ "rects.json" := File true Examples.legacy_text ]>
                {[ CONFIG_FILENAME := File true Examples.migrated_text ]}));
      vm_compute; [by eexists|reflexivity].
Defined.

Lemma failed_migration_raises_witness :
  let d : directory := <[ TMP_FILENAME := Dir ]> Examples.one_legacy in
  _load_all_configs Examples.sample_load Examples.sample_dump d = (Raises OSError, d).
Proof.
  apply (failed_migration_raises Examples.sample_load Examples.sample_dump
           (<[ TMP_FILENAME := Dir ]> Examples.one_legacy) Examples.legacy_rects ∅).
  - vm_compute; reflexivity.
  - vm_compute; reflexivity.
  - vm_compute; reflexivity.
  - vm_compute; reflexivity.
  - vm_compute. intros [].
Defined.

(** A legacy file whose label cannot be written back: the first load raises
    [UnicodeEncodeError]; the legacy file is as it was. *)
Lemma load_failure_modes_witness :
  let failed :=
    _load_all_configs Examples.sample_load Examples.sample_dump Examples.surrogate_legacy in
  failed.1 = Raises UnicodeEncodeError
  ∧ failed.2 !! "rects.json" = Examples.surrogate_legacy !! "rects.json"
  ∧ failed.2 !! CONFIG_FILENAME = None.
Proof.
  destruct (load_failure_modes Examples.sample_load Examples.sample_dump
              Examples.surrogate_legacy UnicodeEncodeError
              (_load_all_configs Examples.sample_load Examples.sample_dump
                 Examples.surrogate_legacy).2) as [Hframe _].
  - vm_compute; reflexivity.
  - split; [vm_compute; reflexivity|]. split.
    + apply Hframe. discriminate.
    + rewrite Hframe by discriminate. vm_compute; reflexivity.
Defined.

End ConfigStoreBehaviour.
